(** * plot_eeg_ecg.py: column classification and chart composition

    A shallow embedding of [plot_eeg_ecg.py]: the column classifier
    ([find_time_col], [find_eeg_cols], [find_ecg_cols], [find_cm_cols],
    [find_ignore_cols]) and the part of [main] that classifies the columns,
    downsamples the table and builds the traces of the figure.

    Column names are Python [str] values; the embedding covers names over
    the ASCII range, on which [str.lower], the [\w] class behind [\b] and
    case-insensitive matching under [re.I] are the functions written out
    below.  Numbers are idealised as rationals: the rounding of a floating
    point division is outside the model. *)

From Stdlib Require Import Ascii String QArith.
From stdpp Require Import base decidable option list strings gmap.

Local Open Scope Z_scope.
Local Open Scope string_scope.
Local Open Scope list_scope.

(** ** Characters and text *)

Module Text.

(** A Python [str] over the ASCII range, as its sequence of characters. *)
Definition chars (s : string) : list ascii := list_ascii_of_string s.

Definition code (c : ascii) : N := N_of_ascii c.

Definition is_upper (c : ascii) : bool := ((65 <=? code c) && (code c <=? 90))%N.
Definition is_lower (c : ascii) : bool := ((97 <=? code c) && (code c <=? 122))%N.
Definition is_digit (c : ascii) : bool := ((48 <=? code c) && (code c <=? 57))%N.

Definition is_alnum (c : ascii) : bool := is_upper c || is_lower c || is_digit c.

(** The class [\w] of the [re] module on the ASCII range: alphanumeric or
    underscore. *)
Definition is_word (c : ascii) : bool := is_alnum c || (code c =? 95)%N.

(** [str.lower] on one character of the ASCII range. *)
Definition lower_char (c : ascii) : ascii :=
  if is_upper c then ascii_of_N (code c + 32) else c.

(** [s.lower()] *)
Definition lower (s : list ascii) : list ascii := lower_char <$> s.

Fixpoint starts_with (p s : list ascii) : bool :=
  match p, s with
  | [], _ => true
  | a :: p', b :: s' => bool_decide (a = b) && starts_with p' s'
  | _ :: _, [] => false
  end.

(** [p in s] on strings: [p] occurs in [s] as a contiguous run. *)
Fixpoint contains (p s : list ascii) : bool :=
  starts_with p s ||
  match s with
  | [] => false
  | _ :: s' => contains p s'
  end.

End Text.

(** ** Regular expressions

    The fragment of [re] syntax that the patterns of the program use,
    matched the way [re.search] with [flags=re.I] decides whether there is
    a match at all. *)

Module Re.
Import Text.

Inductive regex : Type :=
| Eps                          (* the empty pattern *)
| Chr (c : ascii)              (* a literal character *)
| Cls (cs : list ascii)        (* a character set [...] *)
| Bnd                          (* \b *)
| Cat (r1 r2 : regex)          (* r1 r2 *)
| Alt (r1 r2 : regex)          (* r1|r2 *)
| Opt (r : regex).             (* r? *)

(** A position in the subject: the characters before it, nearest first,
    and the characters from it on. *)
Definition cursor : Type := list ascii * list ascii.

Definition word_before (k : cursor) : bool :=
  match k.1 with
  | c :: _ => is_word c
  | [] => false
  end.

Definition word_after (k : cursor) : bool :=
  match k.2 with
  | c :: _ => is_word c
  | [] => false
  end.

(** [\b]: exactly one of the two neighbours is a word character. *)
Definition at_boundary (k : cursor) : bool :=
  xorb (word_before k) (word_after k).

(** Under [re.I] two characters match when they agree up to case. *)
Definition same_char (a b : ascii) : bool :=
  bool_decide (lower_char a = lower_char b).

Definition eat (ok : ascii → bool) (k : cursor) : list cursor :=
  match k.2 with
  | x :: rest => if ok x then [(x :: k.1, rest)] else []
  | [] => []
  end.

(** The positions at which a match of [r] starting at [k] can end, in the
    order in which the backtracking matcher tries them. *)
Fixpoint step (r : regex) (k : cursor) : list cursor :=
  match r with
  | Eps => [k]
  | Chr c => eat (same_char c) k
  | Cls cs => eat (λ x, existsb (same_char x) cs) k
  | Bnd => if at_boundary k then [k] else []
  | Cat r1 r2 => k' ← step r1 k; step r2 k'
  | Alt r1 r2 => step r1 k ++ step r2 k
  | Opt r1 => step r1 k ++ [k]
  end.

Definition matches_at (r : regex) (k : cursor) : bool :=
  match step r k with
  | [] => false
  | _ :: _ => true
  end.

(** Try every start position, left to right. *)
Fixpoint search_from (r : regex) (before after : list ascii) : bool :=
  matches_at r (before, after) ||
  match after with
  | [] => false
  | x :: rest => search_from r (x :: before) rest
  end.

(** [bool(re.search(r, s, flags=re.I))] *)
Definition search (r : regex) (s : string) : bool :=
  search_from r [] (chars s).

(** A literal string; [re.escape] of a name denotes this pattern. *)
Fixpoint lit_chars (s : list ascii) : regex :=
  match s with
  | [] => Eps
  | c :: s' => Cat (Chr c) (lit_chars s')
  end.

Definition lit (s : string) : regex := lit_chars (chars s).

Fixpoint cat (rs : list regex) : regex :=
  match rs with
  | [] => Eps
  | [r] => r
  | r :: rs' => Cat r (cat rs')
  end.

Fixpoint alt (r : regex) (rs : list regex) : regex :=
  match rs with
  | [] => r
  | r' :: rs' => Alt r (alt r' rs')
  end.

End Re.

(** ** The column classifier *)

Import Text Re.

(** EEG channel names from assignment *)
Definition EEG_NAMES : list string :=
  [ "Fz"; "Cz"; "P3"; "C3"; "F3"; "F4"; "C4"; "P4"; "Fp1"; "Fp2";
    "T3"; "T4"; "T5"; "T6"; "O1"; "O2"; "F7"; "F8"; "A1"; "A2"; "Pz" ].

(** [r'\b' + re.escape(name) + r'\b'] *)
Definition eeg_pattern (name : string) : regex :=
  cat [Bnd; lit name; Bnd].

(** [r'\b(x1|x2|leog|reog)\b'] *)
Definition ecg_pattern : regex :=
  cat [Bnd; alt (lit "x1") [lit "x2"; lit "leog"; lit "reog"]; Bnd].

(** [r'\bcm\b|common[_ ]?mode'] *)
Definition cm_pattern : regex :=
  Alt (cat [Bnd; lit "cm"; Bnd])
      (cat [lit "common"; Opt (Cls (chars "_ ")); lit "mode"]).

(** [r'\b(x3|trigger|time_?offset|adc_?status|adc_?sequence|event|comments)\b'] *)
Definition ignore_pattern : regex :=
  cat [Bnd;
       alt (lit "x3")
         [lit "trigger";
          cat [lit "time"; Opt (Chr "_"); lit "offset"];
          cat [lit "adc"; Opt (Chr "_"); lit "status"];
          cat [lit "adc"; Opt (Chr "_"); lit "sequence"];
          lit "event";
          lit "comments"];
       Bnd].

(** ['time' in c.lower()] *)
Definition has_time (c : string) : bool :=
  contains (chars "time") (lower (chars c)).

(** [find_time_col]: the first column whose lowered name contains "time",
    else [df.columns[0]]; [None] is the [IndexError] of indexing an empty
    column list. *)
Definition find_time_col (columns : list string) : option string :=
  match list_find (λ c, has_time c = true) columns with
  | Some (_, c) => Some c
  | None => head columns
  end.

(** [list(dict.fromkeys(found))]: the keys of a dict in insertion order; a
    key that is already present keeps its place. *)
Definition dict_fromkeys (found : list string) : list string :=
  foldl (λ keys c, if bool_decide (c ∈ keys) then keys else keys ++ [c]) [] found.

Definition find_eeg_cols (columns : list string) : list string :=
  dict_fromkeys
    (name ← EEG_NAMES;
     filter (λ c, search (eeg_pattern name) c = true) columns).

Definition find_ecg_cols (columns : list string) : list string :=
  filter (λ c, search ecg_pattern c = true) columns.

Definition find_cm_cols (columns : list string) : list string :=
  filter (λ c, search cm_pattern c = true) columns.

Definition find_ignore_cols (columns : list string) : list string :=
  filter (λ c, search ignore_pattern c = true) columns.

(** ** Tables

    A [pandas.DataFrame] as [read_csv_skip_comments] returns it: a row index
    and an ordered sequence of named columns.  A cell is a number, the
    missing-value marker or text.  [col_numeric] records whether pandas gave
    the column a numeric dtype, the test of
    [select_dtypes(include=[np.number])]. *)

Inductive cell : Type :=
| Num (q : Q)
| NaN
| Str (s : string).

Record column : Type := Column {
  col_name : string;
  col_numeric : bool;
  col_cells : list cell
}.

Record DataFrame : Type := Frame {
  df_index : list nat;
  df_columns : list column
}.

(** [df.columns] *)
Definition columns (df : DataFrame) : list string := col_name <$> df_columns df.

(** [len(df)] *)
Definition len (df : DataFrame) : nat := length (df_index df).

(** Every column has one cell per row. *)
Definition well_formed (df : DataFrame) : Prop :=
  Forall (λ col, length (col_cells col) = len df) (df_columns df).

(** ** Exceptions *)

Inductive exn : Type :=
| IndexError
| KeyError (key : string)
| SystemExit (msg : string).

Inductive res (A : Type) : Type :=
| Ok (a : A)
| Raise (e : exn).
Arguments Ok {A} a.
Arguments Raise {A} e.

#[local] Instance res_ret : MRet res := λ A a, Ok a.
#[local] Instance res_bind : MBind res := λ A B f m,
  match m with
  | Ok a => f a
  | Raise e => Raise e
  end.

(** A [for] loop over [l] that threads the state [s] and stops at the first
    exception. *)
Fixpoint for_each {S A} (body : S → A → res S) (s : S) (l : list A) : res S :=
  match l with
  | [] => Ok s
  | a :: l' => s' ← body s a; for_each body s' l'
  end.

(** The exit status of the process and what it writes on standard error:
    the message for [SystemExit(msg)], a traceback otherwise. *)
Definition exit_status {A} (r : res A) : Z :=
  match r with
  | Ok _ => 0
  | Raise _ => 1
  end.

Definition diagnostic {A} (r : res A) : option string :=
  match r with
  | Raise (SystemExit msg) => Some msg
  | _ => None
  end.

(** [df[c]]: the cells of the column named [c]; [read_csv] makes the names
    of the columns distinct. *)
Definition getitem (df : DataFrame) (c : string) : res (list cell) :=
  match list_find (λ col, col_name col = c) (df_columns df) with
  | Some (_, col) => Ok (col_cells col)
  | None => Raise (KeyError c)
  end.

(** [df.select_dtypes(include=[np.number]).columns] *)
Definition numeric_columns (df : DataFrame) : list string :=
  col_name <$> filter (λ col, col_numeric col = true) (df_columns df).

(** ** Column roles (lines 67-76 of [main]) *)

Record Roles : Type := MkRoles {
  time_col : string;
  eeg_cols : list string;
  ecg_cols : list string;
  cm_cols : list string
}.

(** [[c for c in found if c not in find_ignore_cols(df)]] *)
Definition not_ignored (df : DataFrame) (found : list string) : list string :=
  filter (λ c, c ∉ find_ignore_cols (columns df)) found.

(** The EEG group found by name, before the fallback. *)
Definition eeg_by_name (df : DataFrame) : list string :=
  not_ignored df (find_eeg_cols (columns df)).

Definition detect (df : DataFrame) : res Roles :=
  match find_time_col (columns df) with
  | None => Raise IndexError
  | Some time_col =>
    let eeg_cols := eeg_by_name df in
    let ecg_cols := not_ignored df (find_ecg_cols (columns df)) in
    let cm_cols := not_ignored df (find_cm_cols (columns df)) in
    (* fallback for EEG if none found *)
    let eeg_cols :=
      match eeg_cols with
      | [] =>
        let numeric := numeric_columns df in
        let ignore : gset string :=
          list_to_set ([time_col] ++ ecg_cols ++ cm_cols
                         ++ find_ignore_cols (columns df)) in
        filter (λ c, c ∉ ignore) numeric
      | _ :: _ => eeg_cols
      end in
    Ok (MkRoles time_col eeg_cols ecg_cols cm_cols)
  end.

(** The two remaining roles of the specification: the columns the ignore
    pattern matches, and the columns left with no role at all. *)
Definition ignored (df : DataFrame) : list string :=
  find_ignore_cols (columns df).

Definition unclassified (df : DataFrame) (r : Roles) : list string :=
  filter (λ c, (c ≠ time_col r) ∧ (c ∉ eeg_cols r) ∧ (c ∉ ecg_cols r)
               ∧ (c ∉ cm_cols r) ∧ (c ∉ ignored df)) (columns df).

(** ** Downsampling (lines 84-86 of [main]) *)

(** [l[skip::d]] for a step [d >= 1]. *)
Fixpoint slice_step {A} (d skip : nat) (l : list A) : list A :=
  match l with
  | [] => []
  | a :: l' =>
    match skip with
    | O => a :: slice_step d (d - 1) l'
    | S skip' => slice_step d skip' l'
    end
  end.

(** [df.iloc[::d]] *)
Definition iloc_step (d : nat) (df : DataFrame) : DataFrame :=
  {| df_index := slice_step d 0 (df_index df);
     df_columns :=
       (λ col, Column (col_name col) (col_numeric col)
                      (slice_step d 0 (col_cells col))) <$> df_columns df |}.

(** [df.reset_index(drop=True)] *)
Definition reset_index (df : DataFrame) : DataFrame :=
  {| df_index := seq 0 (len df); df_columns := df_columns df |}.

Definition downsample_step (d : Z) (df : DataFrame) : DataFrame :=
  if bool_decide (d > 1) then reset_index (iloc_step (Z.to_nat d) df) else df.

(** ** The figure (lines 88-153 of [main]) *)

Record Scatter : Type := MkScatter {
  x : list cell;
  y : list cell;
  name : string;
  mode : string;
  line_dash : option string;
  secondary_y : bool
}.

Record Figure : Type := MkFigure {
  data : list Scatter;
  updatemenus : list (string * list bool)
}.

(** [fig.add_trace(tr)] *)
Definition add_trace (fig : list Scatter) (tr : Scatter) : list Scatter :=
  fig ++ [tr].

Record Args : Type := MkArgs {
  input : string;
  output : string;
  downsample : Z
}.

(** What [fig.write_html(args.output, ...)] receives. *)
Record Written : Type := MkWritten {
  path : string;
  figure : Figure
}.

Section Main.

(** The number that pandas reads from a text cell, if it reads one. *)
Context (parse_number : string → option Q).

(** [pd.to_numeric(_, errors='coerce')] on one cell; [None] is the
    missing-value marker. *)
Definition to_numeric (v : cell) : option Q :=
  match v with
  | Num q => Some q
  | NaN => None
  | Str s => parse_number s
  end.

(** One cell of [pd.to_numeric(df[c], errors='coerce') / 1000.0]. *)
Definition millivolts (v : cell) : cell :=
  match to_numeric v with
  | Some q => Num (q / 1000)
  | None => NaN
  end.

(** The state of the three loops: [fig.data] and the index list of the
    group being added. *)
Definition loop_state : Type := list Scatter * list nat.

Definition eeg_body (df : DataFrame) (time_col : string)
    (st : loop_state) (c : string) : res loop_state :=
  xs ← getitem df time_col;
  ys ← getitem df c;
  let fig := add_trace st.1 (MkScatter xs ys c "lines" None false) in
  mret (fig, st.2 ++ [(length fig - 1)%nat]).

Definition ecg_body (df : DataFrame) (time_col : string)
    (st : loop_state) (c : string) : res loop_state :=
  ys ← getitem df c;
  let y := millivolts <$> ys in
  xs ← getitem df time_col;
  let fig := add_trace st.1 (MkScatter xs y (c +:+ " (mV)") "lines" None true) in
  mret (fig, st.2 ++ [(length fig - 1)%nat]).

Definition cm_body (df : DataFrame) (time_col : string)
    (st : loop_state) (c : string) : res loop_state :=
  ys ← getitem df c;
  let y := millivolts <$> ys in
  xs ← getitem df time_col;
  let fig :=
    add_trace st.1 (MkScatter xs y (c +:+ " (mV, CM)") "lines" (Some "dot") true) in
  mret (fig, st.2 ++ [(length fig - 1)%nat]).

Definition main (args : Args) (df0 : DataFrame) : res Written :=
  roles ← detect df0;
  let df := downsample_step (downsample args) df0 in
  '(fig, eeg_idx) ← for_each (eeg_body df (time_col roles)) ([], []) (eeg_cols roles);
  '(fig, ecg_idx) ← for_each (ecg_body df (time_col roles)) (fig, []) (ecg_cols roles);
  '(fig, cm_idx) ← for_each (cm_body df (time_col roles)) (fig, []) (cm_cols roles);
  match fig with
  | [] => Raise (SystemExit "No plottable channels found.")
  | _ :: _ =>
    let total := length fig in
    let all_vis := replicate total true in
    let eeg_vis := (λ i, bool_decide (i ∈ eeg_idx)) <$> seq 0 total in
    let ecgcm_vis := (λ i, bool_decide (i ∈ ecg_idx ++ cm_idx)) <$> seq 0 total in
    let none_vis := replicate total false in
    let buttons :=
      [("All", all_vis); ("EEG only", eeg_vis);
       ("ECG+CM only", ecgcm_vis); ("Hide all", none_vis)] in
    Ok (MkWritten (output args) (MkFigure fig buttons))
  end.

(** The file the run leaves behind, if any. *)
Definition output_file (r : res Written) : option Written :=
  match r with
  | Ok w => Some w
  | Raise _ => None
  end.

End Main.

(** ** Notions used to state the properties *)

Module ReSpec.
Import Re.

(** The strings a pattern without [\b] stands for. *)
Fixpoint words (r : regex) : list (list ascii) :=
  match r with
  | Eps => [[]]
  | Chr c => [[c]]
  | Cls cs => (λ c, [c]) <$> cs
  | Bnd => []
  | Cat r1 r2 => w1 ← words r1; w2 ← words r2; [w1 ++ w2]
  | Alt r1 r2 => words r1 ++ words r2
  | Opt r1 => words r1 ++ [[]]
  end.

Fixpoint bnd_free (r : regex) : bool :=
  match r with
  | Eps | Chr _ | Cls _ => true
  | Bnd => false
  | Cat r1 r2 | Alt r1 r2 => bnd_free r1 && bnd_free r2
  | Opt r1 => bnd_free r1
  end.

(** [k'] is reached from [k] by reading [mid]. *)
Definition reads (k : cursor) (mid : list ascii) (k' : cursor) : Prop :=
  k.2 = mid ++ k'.2 ∧ k'.1 = reverse mid ++ k.1.

End ReSpec.

(** [tok] occurs in [s] up to case, with on each side either an end of the
    string or a character of the class [brk]. *)
Definition occurs_between (brk : ascii → bool) (tok s : list ascii) : Prop :=
  ∃ pre mid post,
    s = pre ++ mid ++ post ∧ lower mid = lower tok ∧
    (∀ a, last pre = Some a → brk a = true) ∧
    (∀ a, head post = Some a → brk a = true).

(** A whole-word occurrence as [\b] delimits it: the neighbours are not
    word characters (letters, digits, underscore). *)
Definition whole_word (tok c : string) : Prop :=
  occurs_between (λ a, negb (is_word a)) (chars tok) (chars c).

(** A whole-word occurrence in the wording of the specification: the
    neighbours are not alphanumeric. *)
Definition whole_word_alnum (tok c : string) : Prop :=
  occurs_between (λ a, negb (is_alnum a)) (chars tok) (chars c).

(** [tok] occurs in [c] up to case, anywhere. *)
Definition occurs (tok c : string) : Prop :=
  occurs_between (λ _, true) (chars tok) (chars c).

(** The first and the last character of [w] are word characters. *)
Definition word_edges (w : list ascii) : bool :=
  match head w, last w with
  | Some a, Some z => is_word a && is_word z
  | _, _ => false
  end.

(** The words of the alternations in [ecg_pattern] and [ignore_pattern], and
    the phrase forms of [cm_pattern], written out. *)
Definition ECG_KEYWORDS : list string := ["x1"; "x2"; "leog"; "reog"].

Definition IGNORE_KEYWORDS : list string :=
  ["x3"; "trigger"; "time_offset"; "timeoffset"; "adc_status"; "adcstatus";
   "adc_sequence"; "adcsequence"; "event"; "comments"].

Definition CM_PHRASES : list string :=
  ["common_mode"; "common mode"; "commonmode"].

(** The EEG group of the fallback, with the set of excluded names written
    as a condition on the name. *)
Definition fallback_eeg (df : DataFrame) (t : string) (ecg cm : list string)
    : list string :=
  filter (λ c, (c ≠ t) ∧ (c ∉ ecg) ∧ (c ∉ cm) ∧ (c ∉ ignored df))
         (numeric_columns df).

(** A small table with the given column names, all of numeric type. *)
Definition numeric_table (names : list string) : DataFrame :=
  Frame [0; 1]%nat ((λ c, Column c true [Num 1; Num 2]) <$> names).

(** [df.iloc[i]]: the cells of row [i], column by column. *)
Definition row (df : DataFrame) (i : nat) : list (option cell) :=
  (λ col, col_cells col !! i) <$> df_columns df.

(** The cells [df[c]] evaluates to, empty where it raises. *)
Definition cells_of (df : DataFrame) (c : string) : list cell :=
  match getitem df c with
  | Ok cells => cells
  | Raise _ => []
  end.

(** The message of the fatal check. *)
Definition NO_CHANNELS : string := "No plottable channels found.".

(** A reader of unsigned decimal integers, to run [main] on concrete
    tables. *)
Definition read_decimal (s : string) : option Q :=
  match chars s with
  | [] => None
  | cs =>
    if forallb is_digit cs
    then Some (inject_Z (foldl (λ acc c, acc * 10 + (Z.of_N (code c) - 48)) 0 cs))
    else None
  end.

(** The table of the scenario [Time,Fz,Cz,X1,CM1] with the given data. *)
Definition scenario (index : list nat) (time fz cz x1 cm1 : list Q) : DataFrame :=
  Frame index
    [Column "Time" true (Num <$> time); Column "Fz" true (Num <$> fz);
     Column "Cz" true (Num <$> cz); Column "X1" true (Num <$> x1);
     Column "CM1" true (Num <$> cm1)].

(** Ten rows: row [i] holds [i] in every column. *)
Definition ten : list Q := (λ i, inject_Z (Z.of_nat i)) <$> seq 0 10.

(** The series of one column in each group, and the traces of the figure:
    the EEG, ECG and CommonMode series in this order. *)
Definition eeg_trace (df : DataFrame) (t c : string) : Scatter :=
  MkScatter (cells_of df t) (cells_of df c) c "lines" None false.

Definition ecg_trace (parse_number : string → option Q)
    (df : DataFrame) (t c : string) : Scatter :=
  MkScatter (cells_of df t) (millivolts parse_number <$> cells_of df c)
            (c +:+ " (mV)") "lines" None true.

Definition cm_trace (parse_number : string → option Q)
    (df : DataFrame) (t c : string) : Scatter :=
  MkScatter (cells_of df t) (millivolts parse_number <$> cells_of df c)
            (c +:+ " (mV, CM)") "lines" (Some "dot") true.

Definition traces (parse_number : string → option Q)
    (df : DataFrame) (r : Roles) : list Scatter :=
  (eeg_trace df (time_col r) <$> eeg_cols r)
  ++ (ecg_trace parse_number df (time_col r) <$> ecg_cols r)
  ++ (cm_trace parse_number df (time_col r) <$> cm_cols r).

(** ** Reading the file ([read_csv_skip_comments], lines 26-30) *)

Definition LF : ascii := "010"%char.
Definition CR : ascii := "013"%char.

(** The text of a file opened in text mode: [\r\n] and a lone [\r] are
    read as [\n]. *)
Fixpoint universal_newlines (s : list ascii) : list ascii :=
  match s with
  | [] => []
  | c :: s' =>
    if bool_decide (c = CR) then
      LF :: match s' with
            | [] => []
            | c' :: s'' =>
              if bool_decide (c' = LF) then universal_newlines s''
              else universal_newlines s'
            end
    else c :: universal_newlines s'
  end.

(** [for line in f]: the lines of the text, each with its [\n]; the last
    one has none when the text does not end in [\n]. *)
Fixpoint readlines (s : list ascii) : list (list ascii) :=
  match s with
  | [] => []
  | c :: s' =>
    if bool_decide (c = LF) then [c] :: readlines s'
    else
      match readlines s' with
      | [] => [[c]]
      | l :: ls => (c :: l) :: ls
      end
  end.

(** Whitespace as [str.lstrip] takes it, in the ASCII range: tab, line
    feed, vertical tab, form feed, carriage return, the four separators
    [\x1c]-[\x1f] and the space. *)
Definition is_space (c : ascii) : bool :=
  ((9 <=? code c) && (code c <=? 13) || (28 <=? code c) && (code c <=? 32))%N.

(** [s.lstrip()] *)
Fixpoint lstrip (s : list ascii) : list ascii :=
  match s with
  | [] => []
  | c :: s' => if is_space c then lstrip s' else s
  end.

(** [line.lstrip().startswith('#')] *)
Definition is_comment (line : list ascii) : bool :=
  starts_with (chars "#") (lstrip line).

(** [''.join(lines)] for the lines that are not comments. *)
Definition skip_comments (text : list ascii) : list ascii :=
  concat (filter (λ line, is_comment line = false) (readlines text)).

(** [read_csv_skip_comments], from the bytes of the file, which over the
    ASCII range are its characters, none being dropped by the decoding;
    [read_csv] stands for [pd.read_csv] on the text it is given. *)
Definition read_csv_skip_comments
    (read_csv : list ascii → res DataFrame) (content : list ascii)
    : res DataFrame :=
  read_csv (skip_comments (universal_newlines content)).

(** A line that ends in its only [\n], and a last line without [\n]. *)
Definition terminated (l : list ascii) : Prop :=
  ∃ body, l = body ++ [LF] ∧ LF ∉ body.

Definition unterminated (l : list ascii) : Prop :=
  l ≠ [] ∧ LF ∉ l.

(** The shape of the lines of a text: all end in [\n] but possibly the
    last. *)
Inductive lines_ok : list (list ascii) → Prop :=
| lines_ok_nil : lines_ok []
| lines_ok_last l : unterminated l → lines_ok [l]
| lines_ok_cons l ls : terminated l → lines_ok ls → lines_ok (l :: ls).

(** ** More notions used to state the properties *)

(** The position in [names] of the first label that the column name [c]
    matches as a whole word. *)
Definition eeg_rank (names : list string) (c : string) : option nat :=
  fst <$> list_find (λ name, search (eeg_pattern name) c = true) names.

(** A trace with every [n]-th point of its data. *)
Definition slice_trace (n : nat) (tr : Scatter) : Scatter :=
  MkScatter (slice_step n 0 (x tr)) (slice_step n 0 (y tr))
            (name tr) (mode tr) (line_dash tr) (secondary_y tr).

Definition is_text (v : cell) : bool :=
  match v with
  | Str _ => true
  | _ => false
  end.

(** Two positions that agree up to case. *)
Definition same_up_to_case (k k' : cursor) : Prop :=
  lower k.1 = lower k'.1 ∧ lower k.2 = lower k'.2.

(** The range on which the embedding is Python's: a text all of whose
    characters are ASCII, where [is_word], [lower_char] and [is_space] are
    the class [\w], [str.lower] and the whitespace of [str.lstrip]. *)
Definition is_ascii (a : ascii) : bool := (code a <? 128)%N.

Definition ascii_text (s : list ascii) : Prop :=
  Forall (λ a, is_ascii a = true) s.

Definition ascii_name (c : string) : Prop := ascii_text (chars c).

(** * Properties *)

Example search_cm_1 : search cm_pattern "CM" = true. Proof. reflexivity. Qed.
Example search_cm_2 : search cm_pattern "CM1" = false. Proof. reflexivity. Qed.
Example search_cm_3 : search cm_pattern "comments" = false. Proof. reflexivity. Qed.
Example search_cm_4 : search cm_pattern "Common Mode" = true. Proof. reflexivity. Qed.
Example search_cm_5 : search cm_pattern "cm_1" = false. Proof. reflexivity. Qed.
Example search_ignore_1 : search ignore_pattern "ADC_Status" = true. Proof. reflexivity. Qed.
Example search_ignore_2 : search ignore_pattern "Time_Offset" = true. Proof. reflexivity. Qed.
Example detect_trigger :
  detect (numeric_table ["t"; "trigger"; "Fp1"]) = Ok (MkRoles "t" ["Fp1"] [] []).
Proof. vm_compute. reflexivity. Qed.
Example find_eeg_1 :
  find_eeg_cols ["Time"; "Fz"; "Cz"; "X1"; "CM1"] = ["Fz"; "Cz"].
Proof. vm_compute. reflexivity. Qed.

(** ** Characters *)

Lemma is_word_lower_char (c : ascii) : is_word (lower_char c) = is_word c.
Proof. destruct c as [[] [] [] [] [] [] [] []]; reflexivity. Qed.

Lemma lower_char_idemp (c : ascii) : lower_char (lower_char c) = lower_char c.
Proof. destruct c as [[] [] [] [] [] [] [] []]; reflexivity. Qed.

Lemma is_word_alnum (c : ascii) : is_word c = false → is_alnum c = false.
Proof. unfold is_word. intros H. apply orb_false_iff in H. tauto. Qed.

Lemma lower_app (s t : list ascii) : lower (s ++ t) = lower s ++ lower t.
Proof. apply fmap_app. Qed.

Lemma lower_idemp (s : list ascii) : lower (lower s) = lower s.
Proof.
  unfold lower. rewrite <- list_fmap_compose. apply list_fmap_ext.
  intros i c _. apply lower_char_idemp.
Qed.

(** ** Substring test *)

Lemma starts_with_spec (p s : list ascii) :
  starts_with p s = true ↔ ∃ post, s = p ++ post.
Proof.
  revert s. induction p as [|a p IH]; intros s; simpl.
  - split; [eauto | done].
  - destruct s as [|b s].
    + split; [done | intros [post H]; discriminate].
    + rewrite andb_true_iff, bool_decide_eq_true, IH. split.
      * intros [-> [post ->]]. eauto.
      * intros [post H]. injection H as -> ->. eauto.
Qed.

Lemma contains_spec (p s : list ascii) :
  contains p s = true ↔ ∃ pre post, s = pre ++ p ++ post.
Proof.
  induction s as [|b s IH]; simpl.
  - rewrite orb_false_r, starts_with_spec. split.
    + intros [post H]. exists [], post. done.
    + intros (pre & post & H). symmetry in H.
      apply app_eq_nil in H as [-> H]. apply app_eq_nil in H as [-> ->].
      exists []. done.
  - rewrite orb_true_iff, starts_with_spec, IH. split.
    + intros [[post H] | (pre & post & H)].
      * exists [], post. done.
      * exists (b :: pre), post. rewrite H. done.
    + intros (pre & post & H). destruct pre as [|a pre]; simpl in H.
      * left. eauto.
      * right. injection H as _ ->. eauto.
Qed.

(** ** The matcher *)

Module ReFacts.
Import Re ReSpec.

Lemma reads_nil k : reads k [] k.
Proof. split; done. Qed.

Lemma reads_app k1 m1 k2 m2 k3 :
  reads k1 m1 k2 → reads k2 m2 k3 → reads k1 (m1 ++ m2) k3.
Proof.
  intros [H1 H2] [H3 H4]. split.
  - rewrite H1, H3, app_assoc. done.
  - rewrite H4, H2, reverse_app, app_assoc. done.
Qed.

Lemma reads_split k m1 m2 k3 :
  reads k (m1 ++ m2) k3 →
  reads k m1 (reverse m1 ++ k.1, m2 ++ k3.2) ∧
  reads (reverse m1 ++ k.1, m2 ++ k3.2) m2 k3.
Proof.
  intros [H1 H2]. repeat split; simpl.
  - rewrite H1, app_assoc. done.
  - rewrite H2, reverse_app, app_assoc. done.
Qed.

Lemma elem_of_eat ok k k' :
  k' ∈ eat ok k ↔ ∃ c, ok c = true ∧ reads k [c] k'.
Proof.
  unfold eat, reads. destruct k as [b s], k' as [b' s']; simpl.
  destruct s as [|c rest].
  - split; [by intros ?%elem_of_nil | intros (c & _ & H & _); discriminate].
  - destruct (ok c) eqn:Hok.
    + rewrite list_elem_of_singleton. split.
      * intros [= -> ->]. exists c. done.
      * intros (c' & _ & [= -> ->] & ->). done.
    + split; [by intros ?%elem_of_nil |].
      intros (c' & Hc' & [= -> ->] & _). congruence.
Qed.

Lemma step_words r :
  bnd_free r = true →
  ∀ k k', k' ∈ step r k ↔
    ∃ w mid, w ∈ words r ∧ lower mid = lower w ∧ reads k mid k'.
Proof.
  induction r as [|c|cs| |r1 IH1 r2 IH2|r1 IH1 r2 IH2|r1 IH1];
    simpl; intros Hfree k k'; try discriminate.
  - rewrite list_elem_of_singleton. split.
    + intros ->. exists [], []. split; [apply list_elem_of_singleton; done|].
      split; [done | apply reads_nil].
    + intros (w & mid & ->%list_elem_of_singleton & Hl & Hr).
      destruct mid; [|discriminate]. destruct Hr as [H1 H2]; simpl in *.
      destruct k, k'; simpl in *; congruence.
  - rewrite elem_of_eat. split.
    + intros (x & Hx & Hr). exists [c], [x].
      split; [apply list_elem_of_singleton; done|]. split; [|done].
      unfold same_char in Hx. apply bool_decide_eq_true in Hx.
      simpl. congruence.
    + intros (w & mid & ->%list_elem_of_singleton & Hl & Hr).
      destruct mid as [|x [|??]]; try discriminate. exists x. split; [|done].
      apply bool_decide_eq_true. simpl in Hl. congruence.
  - rewrite elem_of_eat. split.
    + intros (x & Hx & Hr). apply existsb_exists in Hx as (c & Hc & Hx).
      exists [c], [x]. split.
      { apply list_elem_of_fmap. exists c. split; [done|]. by apply list_elem_of_In. }
      split; [|done]. apply bool_decide_eq_true in Hx. simpl. congruence.
    + intros (w & mid & Hw & Hl & Hr).
      apply list_elem_of_fmap in Hw as (c & -> & Hc).
      destruct mid as [|x [|??]]; try discriminate. exists x. split; [|done].
      apply existsb_exists. exists c. split; [by apply list_elem_of_In|].
      apply bool_decide_eq_true. simpl in Hl. congruence.
  - apply andb_true_iff in Hfree as [Hf1 Hf2].
    rewrite list_elem_of_bind. split.
    + intros (k1 & H2 & H1). apply (IH1 Hf1) in H1 as (w1 & m1 & Hw1 & Hl1 & Hr1).
      apply (IH2 Hf2) in H2 as (w2 & m2 & Hw2 & Hl2 & Hr2).
      exists (w1 ++ w2), (m1 ++ m2). split.
      { apply list_elem_of_bind. exists w1. split; [|done].
        apply list_elem_of_bind. exists w2. split; [|done].
        apply list_elem_of_singleton. done. }
      split; [rewrite !lower_app; congruence | by eapply reads_app].
    + intros (w & mid & Hw & Hl & Hr).
      apply list_elem_of_bind in Hw as (w1 & Hw & Hw1).
      apply list_elem_of_bind in Hw as (w2 & Hw & Hw2).
      apply list_elem_of_singleton in Hw as ->.
      rewrite lower_app in Hl.
      apply fmap_app_inv in Hl as (m1 & m2 & Hl1 & Hl2 & ->).
      apply reads_split in Hr as [Hr1 Hr2].
      eexists. split.
      * apply (IH2 Hf2). exists w2, m2. split; [done|]. split; [done|]. exact Hr2.
      * apply (IH1 Hf1). exists w1, m1. split; [done|]. split; [done|]. exact Hr1.
  - apply andb_true_iff in Hfree as [Hf1 Hf2].
    rewrite elem_of_app, (IH1 Hf1), (IH2 Hf2). split.
    + intros [(w & mid & Hw & H) | (w & mid & Hw & H)];
        exists w, mid; (split; [apply elem_of_app; auto | done]).
    + intros (w & mid & [Hw|Hw]%elem_of_app & H); [left|right]; eauto.
  - rewrite elem_of_app, (IH1 Hfree), list_elem_of_singleton. split.
    + intros [(w & mid & Hw & H) | ->].
      * exists w, mid. split; [apply elem_of_app; auto | done].
      * exists [], []. split; [apply elem_of_app; right; by apply list_elem_of_singleton|].
        split; [done | apply reads_nil].
    + intros (w & mid & [Hw | ->%list_elem_of_singleton]%elem_of_app & Hl & Hr).
      * left. eauto.
      * right. destruct mid; [|discriminate]. destruct Hr as [H1 H2]; simpl in *.
        destruct k, k'; simpl in *; congruence.
Qed.

Lemma matches_at_spec r k : matches_at r k = true ↔ ∃ k', k' ∈ step r k.
Proof.
  unfold matches_at. destruct (step r k) as [|k1 ks].
  - split; [done | intros [k' H]; by apply elem_of_nil in H].
  - split; [intros _; exists k1; left | done].
Qed.

Lemma search_from_spec r s : ∀ b,
  search_from r b s = true ↔
  ∃ pre post, s = pre ++ post ∧ matches_at r (reverse pre ++ b, post) = true.
Proof.
  induction s as [|a s IH]; intros b; simpl.
  - rewrite orb_false_r. split.
    + intros H. exists [], []. done.
    + intros (pre & post & H & Hm). symmetry in H.
      apply app_eq_nil in H as [-> ->]. done.
  - rewrite orb_true_iff, IH. split.
    + intros [H | (pre & post & -> & H)].
      * exists [], (a :: s). done.
      * exists (a :: pre), post. split; [done|].
        rewrite reverse_cons, <- app_assoc. done.
    + intros (pre & post & H & Hm). destruct pre as [|a' pre]; simpl in H.
      * left. subst post. done.
      * right. injection H as -> ->. exists pre, post. split; [done|].
        rewrite reverse_cons, <- app_assoc in Hm. done.
Qed.

Lemma search_spec r c :
  search r c = true ↔
  ∃ pre post k', chars c = pre ++ post ∧ k' ∈ step r (reverse pre, post).
Proof.
  unfold search. rewrite search_from_spec. split.
  - intros (pre & post & H & Hm). rewrite app_nil_r in Hm.
    apply matches_at_spec in Hm as [k' Hk']. eauto.
  - intros (pre & post & k' & H & Hk'). exists pre, post. split; [done|].
    rewrite app_nil_r. apply matches_at_spec. eauto.
Qed.

Lemma search_Alt r1 r2 c :
  search (Alt r1 r2) c = true ↔ search r1 c = true ∨ search r2 c = true.
Proof.
  rewrite !search_spec. simpl. split.
  - intros (pre & post & k' & H & [Hk|Hk]%elem_of_app); [left|right]; eauto.
  - intros [(pre & post & k' & H & Hk) | (pre & post & k' & H & Hk)];
      exists pre, post, k'; (split; [done | apply elem_of_app; auto]).
Qed.

Lemma step_bounded r k k' :
  k' ∈ step (cat [Bnd; r; Bnd]) k ↔
  at_boundary k = true ∧ k' ∈ step r k ∧ at_boundary k' = true.
Proof.
  simpl. rewrite list_elem_of_bind. split.
  - intros (k1 & H2 & H1). destruct (at_boundary k) eqn:Hb.
    + apply list_elem_of_singleton in H1 as ->.
      apply list_elem_of_bind in H2 as (k2 & H3 & H2).
      destruct (at_boundary k2) eqn:Hb2.
      * apply list_elem_of_singleton in H3 as ->. done.
      * by apply elem_of_nil in H3.
    + by apply elem_of_nil in H1.
  - intros (Hb & Hk & Hb'). exists k. rewrite Hb. split; [|by left].
    apply list_elem_of_bind. exists k'. rewrite Hb'. split; [by left | done].
Qed.

Lemma word_before_head k :
  word_before k = from_option is_word false (head k.1).
Proof. unfold word_before. by destruct (k.1). Qed.

Lemma word_after_head k :
  word_after k = from_option is_word false (head k.2).
Proof. unfold word_after. by destruct (k.2). Qed.

Lemma head_fmap {A B} (f : A → B) (l : list A) : head (f <$> l) = f <$> head l.
Proof. by destruct l. Qed.

(** What is read for a word with word characters at both ends begins and
    ends with a word character. *)
Lemma word_edges_lower w mid :
  word_edges w = true → lower mid = lower w →
  ∃ a z, head mid = Some a ∧ last mid = Some z
         ∧ is_word a = true ∧ is_word z = true.
Proof.
  unfold word_edges. intros Hw Hl.
  assert (Hh : lower_char <$> head mid = lower_char <$> head w).
  { unfold lower in Hl. by rewrite <- !head_fmap, Hl. }
  assert (Ht : lower_char <$> last mid = lower_char <$> last w).
  { unfold lower in Hl. by rewrite <- !fmap_last, Hl. }
  destruct (head w) as [a|]; [|done]. destruct (last w) as [z|]; [|done].
  apply andb_true_iff in Hw as [Ha Hz].
  destruct (head mid) as [a'|]; [|done]. destruct (last mid) as [z'|]; [|done].
  simpl in Hh, Ht. injection Hh as Hh. injection Ht as Ht.
  exists a', z'. repeat split.
  - by rewrite <- is_word_lower_char, Hh, is_word_lower_char.
  - by rewrite <- is_word_lower_char, Ht, is_word_lower_char.
Qed.

(** A pattern [\b(...)\b] whose alternatives all have word characters at
    both ends finds exactly the whole-word occurrences of its words. *)
Lemma search_bounded r c :
  bnd_free r = true →
  forallb word_edges (words r) = true →
  search (cat [Bnd; r; Bnd]) c = true ↔
  ∃ w, w ∈ words r ∧ occurs_between (λ a, negb (is_word a)) w (chars c).
Proof.
  intros Hfree Hedges. rewrite search_spec.
  assert (He : ∀ w, w ∈ words r → word_edges w = true).
  { intros w Hw. rewrite forallb_forall in Hedges. apply Hedges.
    by apply list_elem_of_In. }
  split.
  - intros (pre & post & k' & Hc & Hk).
    apply step_bounded in Hk as (Hb & Hk & Hb').
    apply (step_words r Hfree) in Hk as (w & mid & Hw & Hl & [Hr1 Hr2]).
    simpl in Hr1, Hr2.
    destruct (word_edges_lower w mid (He w Hw) Hl) as (a & z & Ha & Hz & Wa & Wz).
    exists w. split; [done|]. exists pre, mid, (k'.2).
    split; [by rewrite Hc, Hr1|]. split; [done|].
    unfold at_boundary in Hb, Hb'.
    rewrite word_before_head, word_after_head in Hb, Hb'. simpl in Hb.
    rewrite Hr1, head_app, Ha, head_reverse in Hb. simpl in Hb.
    rewrite Hr2, head_app, head_reverse, Hz in Hb'. simpl in Hb'.
    rewrite Wa in Hb. rewrite Wz in Hb'. split.
    + intros x Hx. rewrite Hx in Hb. simpl in Hb. by destruct (is_word x).
    + intros x Hx. rewrite Hx in Hb'. simpl in Hb'. by destruct (is_word x).
  - intros (w & Hw & pre & mid & post & Hc & Hl & Hpre & Hpost).
    destruct (word_edges_lower w mid (He w Hw) Hl) as (a & z & Ha & Hz & Wa & Wz).
    exists pre, (mid ++ post), (reverse mid ++ reverse pre, post).
    split; [done|]. apply step_bounded. split; [|split].
    + unfold at_boundary. rewrite word_before_head, word_after_head. simpl.
      rewrite head_app, Ha, head_reverse. simpl. rewrite Wa.
      destruct (last pre) as [x|] eqn:Hx; simpl; [|done].
      specialize (Hpre x eq_refl). by destruct (is_word x).
    + apply (step_words r Hfree). exists w, mid. done.
    + unfold at_boundary. rewrite word_before_head, word_after_head. simpl.
      rewrite head_app, head_reverse, Hz. simpl. rewrite Wz.
      destruct (head post) as [x|] eqn:Hx; simpl; [|done].
      specialize (Hpost x eq_refl). by destruct (is_word x).
Qed.

(** A pattern without [\b] finds exactly the occurrences of its words. *)
Lemma search_unbounded r c :
  bnd_free r = true →
  search r c = true ↔
  ∃ w, w ∈ words r ∧ occurs_between (λ _, true) w (chars c).
Proof.
  intros Hfree. rewrite search_spec. split.
  - intros (pre & post & k' & Hc & Hk).
    apply (step_words r Hfree) in Hk as (w & mid & Hw & Hl & [Hr1 Hr2]).
    simpl in Hr1. exists w. split; [done|]. exists pre, mid, (k'.2).
    rewrite Hc, Hr1. done.
  - intros (w & Hw & pre & mid & post & Hc & Hl & _).
    exists pre, (mid ++ post), (reverse mid ++ reverse pre, post).
    split; [done|]. apply (step_words r Hfree). exists w, mid. done.
Qed.

End ReFacts.

(** ** The patterns of the classifier *)

Import ReSpec ReFacts.

Lemma words_lit_chars w : words (lit_chars w) = [w].
Proof. induction w as [|a w IH]; simpl; [done|]. by rewrite IH. Qed.

Lemma bnd_free_lit_chars w : bnd_free (lit_chars w) = true.
Proof. induction w as [|a w IH]; simpl; done. Qed.

Lemma exists_fmap_chars (P : list ascii → Prop) (toks : list string) :
  (∃ w, w ∈ chars <$> toks ∧ P w) ↔ (∃ tok, tok ∈ toks ∧ P (chars tok)).
Proof.
  split.
  - intros (w & (tok & -> & Htok)%list_elem_of_fmap & HP). eauto.
  - intros (tok & Htok & HP). exists (chars tok). split; [|done].
    apply list_elem_of_fmap. eauto.
Qed.

Lemma search_eeg_pattern name c :
  name ∈ EEG_NAMES →
  search (eeg_pattern name) c = true ↔ whole_word name c.
Proof.
  intros Hname. unfold eeg_pattern, lit, whole_word.
  rewrite search_bounded.
  - rewrite words_lit_chars. split.
    + by intros (w & ->%list_elem_of_singleton & H).
    + intros H. exists (chars name). split; [by apply list_elem_of_singleton | done].
  - apply bnd_free_lit_chars.
  - rewrite words_lit_chars. simpl. rewrite andb_true_r.
    assert (H : Forall (λ n, word_edges (chars n) = true) EEG_NAMES)
      by (repeat constructor).
    rewrite Forall_forall in H. by apply H.
Qed.

Lemma search_ecg_pattern c :
  search ecg_pattern c = true ↔ ∃ tok, tok ∈ ECG_KEYWORDS ∧ whole_word tok c.
Proof.
  unfold ecg_pattern. rewrite search_bounded by reflexivity.
  change (words _) with (chars <$> ECG_KEYWORDS).
  apply exists_fmap_chars.
Qed.

Lemma search_ignore_pattern c :
  search ignore_pattern c = true ↔ ∃ tok, tok ∈ IGNORE_KEYWORDS ∧ whole_word tok c.
Proof.
  unfold ignore_pattern. rewrite search_bounded by reflexivity.
  change (words _) with (chars <$> IGNORE_KEYWORDS).
  apply exists_fmap_chars.
Qed.

Lemma search_cm_pattern c :
  search cm_pattern c = true ↔
  whole_word "cm" c ∨ ∃ tok, tok ∈ CM_PHRASES ∧ occurs tok c.
Proof.
  unfold cm_pattern. rewrite search_Alt.
  rewrite search_bounded by reflexivity.
  rewrite search_unbounded by reflexivity.
  change (words (cat _)) with (chars <$> CM_PHRASES).
  change (words (lit "cm")) with [chars "cm"].
  rewrite (exists_fmap_chars (λ w, occurs_between _ w (chars c))).
  split.
  - intros [(w & ->%list_elem_of_singleton & H) | H]; [by left | by right].
  - intros [H | H]; [left | by right].
    exists (chars "cm"). split; [by apply list_elem_of_singleton | done].
Qed.

(** Inside a name that is one run of word characters, a whole word is the
    whole name. *)
Lemma whole_word_run tok c :
  whole_word tok c → Forall (λ a, is_word a = true) (chars c) →
  lower (chars c) = lower (chars tok).
Proof.
  intros (pre & mid & post & Hc & Hl & Hpre & Hpost) Hrun.
  rewrite Hc, !Forall_app in Hrun. destruct Hrun as (Hrun1 & _ & Hrun2).
  assert (pre = []) as ->.
  { apply last_None. destruct (last pre) as [a|] eqn:Ha; [|done].
    specialize (Hpre a eq_refl). apply last_Some in Ha as [l' ->].
    rewrite Forall_app, Forall_singleton in Hrun1. destruct Hrun1 as [_ H].
    rewrite H in Hpre. done. }
  assert (post = []) as ->.
  { destruct post as [|a post]; [done|].
    specialize (Hpost a eq_refl). rewrite Forall_cons in Hrun2.
    destruct Hrun2 as [H _]. rewrite H in Hpost. done. }
  rewrite Hc, app_nil_r. done.
Qed.

Lemma has_time_spec c : has_time c = true ↔ occurs "time" c.
Proof.
  unfold has_time, occurs, occurs_between. rewrite contains_spec. split.
  - intros (pre & post & H). unfold lower in H.
    apply fmap_app_inv in H as (l1 & l23 & H1 & H23 & Hc).
    symmetry in H23. apply fmap_app_inv in H23 as (l2 & l3 & H2 & H3 & ->).
    exists l1, l2, l3. split; [done|]. split; [|done].
    change (lower l2) with (lower_char <$> l2). by rewrite <- H2.
  - intros (pre & mid & post & Hc & Hl & _).
    exists (lower pre), (lower post). rewrite Hc, !lower_app, Hl. done.
Qed.

(** ** Whole-word matching *)

(** C2, as the code has it, for a column name over the ASCII range: each
    whole-word pattern of the classifier (the 21 EEG labels, the ECG
    keywords, the Ignore keywords, CommonMode [cm]) matches the name exactly
    when one of its tokens occurs in the name, up to case, with on each side
    an end of the name or a character that is not a word character, where
    letters, digits and the underscore are word characters; the CommonMode
    pattern matches in addition when one of its phrase forms occurs
    anywhere.  In a name that is a single run of word characters a token
    matches only as the whole name. *)
Theorem whole_word_patterns (c : string) :
  ascii_name c →
  (∀ name, name ∈ EEG_NAMES →
     search (eeg_pattern name) c = true ↔ whole_word name c) ∧
  (search ecg_pattern c = true ↔ ∃ tok, tok ∈ ECG_KEYWORDS ∧ whole_word tok c) ∧
  (search ignore_pattern c = true ↔
     ∃ tok, tok ∈ IGNORE_KEYWORDS ∧ whole_word tok c) ∧
  (search cm_pattern c = true ↔
     whole_word "cm" c ∨ ∃ tok, tok ∈ CM_PHRASES ∧ occurs tok c) ∧
  (∀ tok, whole_word tok c → Forall (λ a, is_word a = true) (chars c) →
     lower (chars c) = lower (chars tok)).
Proof.
  intros _.
  split; [intros name Hname; by apply search_eeg_pattern|].
  split; [apply search_ecg_pattern|].
  split; [apply search_ignore_pattern|].
  split; [apply search_cm_pattern|].
  intros tok. apply whole_word_run.
Qed.

Lemma whole_word_patterns_witness :
  (ascii_name "EEG Fz" ∧ "Fz" ∈ EEG_NAMES
   ∧ search (eeg_pattern "Fz") "EEG Fz" = true ∧ whole_word "Fz" "EEG Fz") ∧
  (ascii_name "CM" ∧ whole_word "cm" "CM"
   ∧ Forall (λ a, is_word a = true) (chars "CM")
   ∧ lower (chars "CM") = lower (chars "cm")).
Proof.
  assert (Ha1 : ascii_name "EEG Fz") by (repeat constructor).
  assert (Ha2 : ascii_name "CM") by (repeat constructor).
  destruct (whole_word_patterns "EEG Fz" Ha1) as (Heeg & _).
  destruct (whole_word_patterns "CM" Ha2) as (_ & _ & _ & _ & Hrun).
  assert (Hname : "Fz" ∈ EEG_NAMES) by compute_done.
  assert (Hs : search (eeg_pattern "Fz") "EEG Fz" = true) by reflexivity.
  assert (Hw : whole_word "cm" "CM").
  { exists [], (chars "CM"), []. repeat split; intros a Ha; discriminate. }
  assert (Hall : Forall (λ a, is_word a = true) (chars "CM"))
    by (repeat constructor).
  split.
  - split; [done|]. split; [done|]. split; [done|]. by apply (Heeg "Fz" Hname).
  - split; [done|]. split; [done|]. split; [done|]. exact (Hrun "cm" Hw Hall).
Defined.

(** C2, as stated, fails: in [cm_1] the token [cm] stands between the start
    of the name and an underscore, which is not alphanumeric, yet the
    CommonMode pattern does not match. *)
Lemma whole_word_alnum_counterexample :
  ¬ (search cm_pattern "cm_1" = true ↔ whole_word_alnum "cm" "cm_1").
Proof.
  intros [_ H].
  assert (Hocc : whole_word_alnum "cm" "cm_1").
  { exists [], (chars "cm"), (chars "_1"). repeat split.
    - intros a Ha. discriminate.
    - intros a [= <-]. reflexivity. }
  apply H in Hocc. vm_compute in Hocc. discriminate.
Qed.

(** ** Time detection *)

Lemma find_time_col_first pre t post :
  Forall (λ c, ¬ occurs "time" c) pre → occurs "time" t →
  find_time_col (pre ++ t :: post) = Some t.
Proof.
  intros Hpre Ht. unfold find_time_col.
  assert (H : list_find (λ c, has_time c = true) (pre ++ t :: post)
              = Some (length pre, t)).
  { apply list_find_Some. split; [|split].
    - by rewrite list_lookup_middle.
    - by apply has_time_spec.
    - intros j y Hj Hlt. rewrite lookup_app_l in Hj by done.
      rewrite Forall_forall in Hpre. rewrite has_time_spec.
      apply Hpre. eapply list_elem_of_lookup_2. done. }
  by rewrite H.
Qed.

Lemma find_time_col_none cols :
  Forall (λ c, ¬ occurs "time" c) cols → find_time_col cols = head cols.
Proof.
  intros H. unfold find_time_col.
  assert (Hn : list_find (λ c, has_time c = true) cols = None).
  { apply list_find_None. eapply Forall_impl; [exact H|].
    intros c Hc. simpl. by rewrite has_time_spec. }
  by rewrite Hn.
Qed.

Lemma first_occurrence (P : string → Prop) `{∀ c, Decision (P c)} cols :
  (∃ c, c ∈ cols ∧ P c) →
  ∃ pre t post, cols = pre ++ t :: post ∧ Forall (λ c, ¬ P c) pre ∧ P t.
Proof.
  intros (c & Hc & HP).
  destruct (list_find_elem_of P cols c Hc HP) as [[i t] Hfind].
  apply list_find_Some in Hfind as (Hi & Ht & Hbefore).
  exists (take i cols), t, (drop (S i) cols). split; [|split; [|done]].
  - by rewrite take_drop_middle.
  - apply Forall_forall. intros y Hy.
    apply list_elem_of_lookup in Hy as [j Hj].
    pose proof (lookup_lt_Some _ _ _ Hj) as Hlen.
    rewrite length_take in Hlen.
    rewrite lookup_take_lt in Hj by lia. apply (Hbefore j y Hj). lia.
Qed.

Lemma has_time_occurs_dec c : Decision (occurs "time" c).
Proof.
  destruct (has_time c) eqn:H.
  - left. by apply has_time_spec.
  - right. rewrite <- has_time_spec. congruence.
Qed.

(** C5: when some column name contains "time" in any case, the Time column
    is the first such column in table order; when none does, it is the first
    column of the table. *)
Theorem time_column_selection (cols : list string) :
  ((∃ c, c ∈ cols ∧ occurs "time" c) →
     ∃ pre t post,
       cols = pre ++ t :: post ∧ Forall (λ c, ¬ occurs "time" c) pre
       ∧ occurs "time" t ∧ find_time_col cols = Some t) ∧
  (Forall (λ c, ¬ occurs "time" c) cols →
     ∀ first rest, cols = first :: rest → find_time_col cols = Some first).
Proof.
  split.
  - intros Hex.
    destruct (first_occurrence (λ c, occurs "time" c)
                (H:=has_time_occurs_dec) cols Hex)
      as (pre & t & post & -> & Hpre & Ht).
    exists pre, t, post. repeat split; try done.
    by apply find_time_col_first.
  - intros Hnone first rest ->. by rewrite find_time_col_none.
Qed.

Lemma time_column_selection_witness :
  ((∃ c, c ∈ ["id"; "Elapsed TIME"; "time2"] ∧ occurs "time" c) ∧
   find_time_col ["id"; "Elapsed TIME"; "time2"] = Some "Elapsed TIME") ∧
  (Forall (λ c, ¬ occurs "time" c) ["t"; "trigger"; "Fp1"] ∧
   find_time_col ["t"; "trigger"; "Fp1"] = Some "t").
Proof.
  split.
  - assert (Hex : ∃ c, c ∈ ["id"; "Elapsed TIME"; "time2"] ∧ occurs "time" c).
    { exists "time2". split; [compute_done|]. by apply has_time_spec. }
    split; [done|].
    destruct (proj1 (time_column_selection ["id"; "Elapsed TIME"; "time2"]) Hex)
      as (pre & t & post & _ & _ & _ & Hfind).
    rewrite Hfind. vm_compute in Hfind. congruence.
  - assert (Hnone : Forall (λ c, ¬ occurs "time" c) ["t"; "trigger"; "Fp1"]).
    { repeat constructor; rewrite <- has_time_spec; by vm_compute. }
    split; [done|].
    exact (proj2 (time_column_selection ["t"; "trigger"; "Fp1"]) Hnone _ _ eq_refl).
Defined.

(** ** Column roles *)

Lemma find_time_col_elem cols :
  cols ≠ [] → ∃ t, find_time_col cols = Some t ∧ t ∈ cols.
Proof.
  intros Hne. unfold find_time_col.
  destruct (list_find _ cols) as [[i t]|] eqn:Hfind.
  - apply list_find_Some in Hfind as (Hi & _). exists t. split; [done|].
    eapply list_elem_of_lookup_2. done.
  - destruct cols as [|c cols]; [done|]. exists c. split; [done | by left].
Qed.

Lemma find_time_col_Some_elem cols t :
  find_time_col cols = Some t → t ∈ cols.
Proof.
  intros H. destruct cols as [|c cols]; [done|].
  destruct (find_time_col_elem (c :: cols)) as (t' & Ht' & Hin); [done|].
  congruence.
Qed.

Lemma elem_of_find_ignore_cols cols c :
  c ∈ find_ignore_cols cols ↔ search ignore_pattern c = true ∧ c ∈ cols.
Proof. unfold find_ignore_cols. by rewrite list_elem_of_filter. Qed.

Lemma elem_of_not_ignored df found c :
  c ∈ not_ignored df found ↔ (c ∉ ignored df) ∧ c ∈ found.
Proof. unfold not_ignored. by rewrite list_elem_of_filter. Qed.

Lemma elem_of_dict_fromkeys found c : c ∈ dict_fromkeys found ↔ c ∈ found.
Proof.
  unfold dict_fromkeys.
  assert (H : ∀ keys, c ∈ foldl (λ keys c, if bool_decide (c ∈ keys)
                                            then keys else keys ++ [c]) keys found
                      ↔ c ∈ keys ∨ c ∈ found).
  { induction found as [|a found IH]; intros keys; simpl.
    - rewrite elem_of_nil. tauto.
    - rewrite IH, elem_of_cons. case_bool_decide as Ha.
      + split; [tauto|]. intros [?|[->|?]]; auto.
      + rewrite elem_of_app, list_elem_of_singleton. tauto. }
  rewrite H, elem_of_nil. tauto.
Qed.

Lemma elem_of_find_eeg_cols cols c :
  c ∈ find_eeg_cols cols ↔
  c ∈ cols ∧ ∃ name, name ∈ EEG_NAMES ∧ search (eeg_pattern name) c = true.
Proof.
  unfold find_eeg_cols. rewrite elem_of_dict_fromkeys, list_elem_of_bind. split.
  - intros (name & (Hs & Hc)%list_elem_of_filter & Hname). eauto.
  - intros (Hc & name & Hname & Hs). exists name. split; [|done].
    by apply list_elem_of_filter.
Qed.

Lemma detect_Ok df t :
  find_time_col (columns df) = Some t →
  detect df =
    Ok (MkRoles t
          (match eeg_by_name df with
           | [] => fallback_eeg df t
                     (not_ignored df (find_ecg_cols (columns df)))
                     (not_ignored df (find_cm_cols (columns df)))
           | _ :: _ => eeg_by_name df
           end)
          (not_ignored df (find_ecg_cols (columns df)))
          (not_ignored df (find_cm_cols (columns df)))).
Proof.
  intros Ht. unfold detect. rewrite Ht.
  destruct (eeg_by_name df) as [|c l]; [|done].
  do 2 f_equal. unfold fallback_eeg. apply list_filter_iff.
  intros c. rewrite elem_of_list_to_set, !elem_of_app, list_elem_of_singleton.
  unfold ignored. tauto.
Qed.

Lemma detect_inv df r :
  detect df = Ok r →
  find_time_col (columns df) = Some (time_col r) ∧
  ecg_cols r = not_ignored df (find_ecg_cols (columns df)) ∧
  cm_cols r = not_ignored df (find_cm_cols (columns df)) ∧
  eeg_cols r =
    match eeg_by_name df with
    | [] => fallback_eeg df (time_col r) (ecg_cols r) (cm_cols r)
    | _ :: _ => eeg_by_name df
    end.
Proof.
  intros H. destruct (find_time_col (columns df)) as [t|] eqn:Ht.
  - rewrite (detect_Ok df t Ht) in H. injection H as <-. done.
  - unfold detect in H. rewrite Ht in H. discriminate.
Qed.

Lemma detect_total df :
  columns df ≠ [] → ∃ r, detect df = Ok r.
Proof.
  intros Hne. destruct (find_time_col_elem _ Hne) as (t & Ht & _).
  rewrite (detect_Ok df t Ht). eauto.
Qed.

Lemma numeric_columns_subseteq df c : c ∈ numeric_columns df → c ∈ columns df.
Proof.
  unfold numeric_columns, columns. rewrite !list_elem_of_fmap.
  intros (col & -> & (_ & Hcol)%list_elem_of_filter). eauto.
Qed.

Lemma roles_subseteq df r :
  detect df = Ok r →
  time_col r ∈ columns df ∧
  (∀ c, c ∈ eeg_cols r → c ∈ columns df) ∧
  (∀ c, c ∈ ecg_cols r → c ∈ columns df) ∧
  (∀ c, c ∈ cm_cols r → c ∈ columns df).
Proof.
  intros (Ht & Hecg & Hcm & Heeg)%detect_inv.
  split; [by apply find_time_col_Some_elem|]. split; [|split].
  - intros c. rewrite Heeg. destruct (eeg_by_name df) as [|a l] eqn:Hn.
    + intros (_ & Hc)%list_elem_of_filter. by apply numeric_columns_subseteq.
    + rewrite <- Hn. unfold eeg_by_name.
      rewrite elem_of_not_ignored, elem_of_find_eeg_cols. tauto.
  - intros c. rewrite Hecg, elem_of_not_ignored. unfold find_ecg_cols.
    rewrite list_elem_of_filter. tauto.
  - intros c. rewrite Hcm, elem_of_not_ignored. unfold find_cm_cols.
    rewrite list_elem_of_filter. tauto.
Qed.

Lemma ignored_excluded df r c :
  detect df = Ok r → c ∈ ignored df →
  (c ∉ eeg_cols r) ∧ (c ∉ ecg_cols r) ∧ (c ∉ cm_cols r).
Proof.
  intros (Ht & Hecg & Hcm & Heeg)%detect_inv Hc.
  rewrite Heeg, Hecg, Hcm. split; [|split].
  - destruct (eeg_by_name df) as [|a l] eqn:Hn.
    + unfold fallback_eeg. rewrite list_elem_of_filter. tauto.
    + rewrite <- Hn. unfold eeg_by_name. rewrite elem_of_not_ignored. tauto.
  - rewrite elem_of_not_ignored. tauto.
  - rewrite elem_of_not_ignored. tauto.
Qed.

(** C3, as the code has it: a table with at least one column gets exactly
    one Time column, a column of the table; every group is made of columns
    of the table and every column has at least one role; the Ignored group
    is disjoint from the EEG, ECG and CommonMode groups, and the
    Unclassified columns are in no other group; an EEG group that comes from
    the fallback is also disjoint from Time, ECG and CommonMode. *)
Theorem roles_cover_and_exclusions (df : DataFrame) :
  columns df ≠ [] →
  ∃ r, detect df = Ok r ∧
    time_col r ∈ columns df ∧
    (∀ c, c ∈ eeg_cols r ∨ c ∈ ecg_cols r ∨ c ∈ cm_cols r ∨ c ∈ ignored df
          ∨ c ∈ unclassified df r → c ∈ columns df) ∧
    (∀ c, c ∈ columns df →
          c = time_col r ∨ c ∈ eeg_cols r ∨ c ∈ ecg_cols r ∨ c ∈ cm_cols r
          ∨ c ∈ ignored df ∨ c ∈ unclassified df r) ∧
    (∀ c, c ∈ ignored df →
          (c ∉ eeg_cols r) ∧ (c ∉ ecg_cols r) ∧ (c ∉ cm_cols r)) ∧
    (∀ c, c ∈ unclassified df r →
          c ≠ time_col r ∧ (c ∉ eeg_cols r) ∧ (c ∉ ecg_cols r)
          ∧ (c ∉ cm_cols r) ∧ (c ∉ ignored df)) ∧
    (eeg_by_name df = [] →
     ∀ c, c ∈ eeg_cols r →
          c ≠ time_col r ∧ (c ∉ ecg_cols r) ∧ (c ∉ cm_cols r) ∧ (c ∉ ignored df)).
Proof.
  intros Hne. destruct (detect_total df Hne) as [r Hr]. exists r.
  split; [done|].
  destruct (roles_subseteq df r Hr) as (Ht & Heeg & Hecg & Hcm).
  split; [done|]. split; [|split; [|split; [|split]]].
  - intros c [H|[H|[H|[H|H]]]]; auto.
    + unfold ignored in H. by apply elem_of_find_ignore_cols in H as [_ H].
    + unfold unclassified in H. by apply list_elem_of_filter in H as [_ H].
  - intros c Hc.
    destruct (decide (c = time_col r)); [by left|].
    destruct (decide (c ∈ eeg_cols r)); [by right; left|].
    destruct (decide (c ∈ ecg_cols r)); [by right; right; left|].
    destruct (decide (c ∈ cm_cols r)); [by right; right; right; left|].
    destruct (decide (c ∈ ignored df)); [by right; right; right; right; left|].
    do 5 right. unfold unclassified. by apply list_elem_of_filter.
  - intros c Hc. by apply (ignored_excluded df).
  - intros c Hc. unfold unclassified in Hc.
    by apply list_elem_of_filter in Hc as [Hc _].
  - intros Hnone c Hc. apply detect_inv in Hr as (_ & _ & _ & Hr).
    rewrite Hr, Hnone in Hc. unfold fallback_eeg in Hc.
    by apply list_elem_of_filter in Hc as [Hc _].
Qed.

Lemma roles_cover_and_exclusions_witness :
  columns (numeric_table ["t"; "trigger"; "Fp1"; "gain"]) ≠ [] ∧
  ∃ r, detect (numeric_table ["t"; "trigger"; "Fp1"; "gain"]) = Ok r ∧
       time_col r ∈ columns (numeric_table ["t"; "trigger"; "Fp1"; "gain"]).
Proof.
  split; [done|].
  destruct (roles_cover_and_exclusions
              (numeric_table ["t"; "trigger"; "Fp1"; "gain"])) as (r & Hr & Ht & _);
    [done|].
  exists r. done.
Defined.

(** C3, as stated, fails: the column [Fz x1] matches an EEG label and an
    ECG keyword and is in both groups, and the Time column [Time Fz] is in
    the EEG group as well. *)
Lemma roles_overlap_counterexample :
  ∃ r, detect (numeric_table ["Time Fz"; "Fz x1"]) = Ok r ∧
       "Fz x1" ∈ eeg_cols r ∧ "Fz x1" ∈ ecg_cols r ∧ time_col r ∈ eeg_cols r.
Proof.
  exists (MkRoles "Time Fz" ["Time Fz"; "Fz x1"] ["Fz x1"] []).
  split; [vm_compute; reflexivity|]. repeat split; compute_done.
Qed.

(** ** Precedence of Ignored *)

(** C4, as the code has it: a column whose name the Ignore pattern matches
    is in the Ignored group and in none of the EEG, ECG and CommonMode
    groups, whatever else its name matches and whether or not the EEG group
    comes from the fallback.  For a name over the ASCII range the pattern
    matches exactly when one of the Ignore keywords occurs in the name, in
    any case, with on each side an end of the name or a character that is
    not a letter, a digit or an underscore. *)
Theorem ignored_takes_precedence (df : DataFrame) (r : Roles) (c : string) :
  detect df = Ok r →
  c ∈ columns df →
  (search ignore_pattern c = true →
     c ∈ ignored df ∧ (c ∉ eeg_cols r) ∧ (c ∉ ecg_cols r) ∧ (c ∉ cm_cols r)) ∧
  (ascii_name c →
     search ignore_pattern c = true ↔
     ∃ tok, tok ∈ IGNORE_KEYWORDS ∧ whole_word tok c).
Proof.
  intros Hr Hc. split.
  - intros Hs.
    assert (Hign : c ∈ ignored df) by (by apply elem_of_find_ignore_cols).
    split; [done|]. by apply (ignored_excluded df).
  - intros _. apply search_ignore_pattern.
Qed.

Lemma ignored_takes_precedence_witness :
  let df := numeric_table ["Time"; "Fz event"; "x1 trigger"; "CM comments"; "Cz"] in
  let r := MkRoles "Time" ["Cz"] [] [] in
  detect df = Ok r ∧ "Fz event" ∈ columns df ∧
  search ignore_pattern "Fz event" = true ∧ ascii_name "Fz event" ∧
  (∃ tok, tok ∈ IGNORE_KEYWORDS ∧ whole_word tok "Fz event") ∧
  ("Fz event" ∈ ignored df ∧ ("Fz event" ∉ eeg_cols r)
   ∧ ("Fz event" ∉ ecg_cols r) ∧ ("Fz event" ∉ cm_cols r)).
Proof.
  intros df r.
  assert (Hr : detect df = Ok r) by (vm_compute; reflexivity).
  assert (Hc : "Fz event" ∈ columns df) by compute_done.
  assert (Hs : search ignore_pattern "Fz event" = true) by reflexivity.
  assert (Ha : ascii_name "Fz event") by (repeat constructor).
  destruct (ignored_takes_precedence df r "Fz event" Hr Hc) as [Hex Hkw].
  split; [done|]. split; [done|]. split; [done|]. split; [done|].
  split; [by apply (Hkw Ha) | by apply Hex].
Defined.

(** C4, as stated, fails: in [Fz event_1] the keyword [event] stands
    between a space and an underscore, neither of them alphanumeric, yet
    the Ignore pattern does not match and the column is in the EEG group. *)
Lemma ignored_underscore_counterexample :
  ∃ r, detect (numeric_table ["Time"; "Fz event_1"]) = Ok r ∧
       whole_word_alnum "event" "Fz event_1" ∧
       "Fz event_1" ∈ eeg_cols r.
Proof.
  exists (MkRoles "Time" ["Fz event_1"] [] []).
  split; [vm_compute; reflexivity|]. split; [|compute_done].
  exists (chars "Fz "), (chars "event"), (chars "_1"). repeat split.
  - intros a [= <-]. reflexivity.
  - intros a [= <-]. reflexivity.
Qed.

(** ** The EEG fallback *)

(** C9: when the detection of EEG columns by name gives an empty group, the
    EEG group is the numeric columns of the table, in table order, without
    the Time column and without the ECG, CommonMode and Ignored columns; so
    it is not empty as soon as one such column exists. *)
Theorem eeg_fallback (df : DataFrame) (r : Roles) :
  detect df = Ok r →
  eeg_by_name df = [] →
  eeg_cols r =
    filter (λ c, (c ≠ time_col r) ∧ (c ∉ ecg_cols r) ∧ (c ∉ cm_cols r)
                 ∧ (c ∉ ignored df)) (numeric_columns df) ∧
  (∀ c, c ∈ eeg_cols r ↔
        c ∈ numeric_columns df ∧ c ≠ time_col r ∧ (c ∉ ecg_cols r)
        ∧ (c ∉ cm_cols r) ∧ (c ∉ ignored df)) ∧
  ((∃ c, c ∈ numeric_columns df ∧ c ≠ time_col r ∧ (c ∉ ecg_cols r)
         ∧ (c ∉ cm_cols r) ∧ (c ∉ ignored df)) → eeg_cols r ≠ []).
Proof.
  intros Hr Hnone. apply detect_inv in Hr as (_ & _ & _ & Hr).
  rewrite Hnone in Hr. unfold fallback_eeg in Hr.
  assert (Hiff : ∀ c, c ∈ eeg_cols r ↔
        c ∈ numeric_columns df ∧ c ≠ time_col r ∧ (c ∉ ecg_cols r)
        ∧ (c ∉ cm_cols r) ∧ (c ∉ ignored df)).
  { intros c. rewrite Hr at 1. rewrite list_elem_of_filter. tauto. }
  split; [done|]. split; [done|].
  intros (c & Hc). apply Hiff in Hc. intros Hnil. rewrite Hnil in Hc.
  by apply elem_of_nil in Hc.
Qed.

Lemma eeg_fallback_witness :
  let df := Frame [0; 1]%nat
              [Column "t" true [Num 0; Num 1];
               Column "ch1" true [Num 5; Num 6];
               Column "note" false [Str "a"; Str "b"];
               Column "X1" true [Num 7; Num 8];
               Column "event" true [Num 0; Num 1];
               Column "ch2" true [Num 3; Num 4]] in
  let r := MkRoles "t" ["ch1"; "ch2"] ["X1"] [] in
  detect df = Ok r ∧ eeg_by_name df = [] ∧ eeg_cols r ≠ [].
Proof.
  intros df r.
  assert (Hr : detect df = Ok r) by (vm_compute; reflexivity).
  assert (Hnone : eeg_by_name df = []) by (vm_compute; reflexivity).
  split; [done|]. split; [done|].
  destruct (eeg_fallback df r Hr Hnone) as (_ & _ & Hne). apply Hne.
  exists "ch1". repeat split; compute_done.
Defined.

(** ** Downsampling *)

Lemma length_slice_step {A} (d : nat) (l : list A) : ∀ k,
  (k < d)%nat → length (slice_step d k l) = ((length l + d - 1 - k) / d)%nat.
Proof.
  induction l as [|a l IH]; intros k Hk; cbn [slice_step length].
  - symmetry. apply Nat.div_small. lia.
  - destruct k as [|k'].
    + cbn [length]. rewrite IH by lia.
      replace (length l + d - 1 - (d - 1))%nat with (length l) by lia.
      replace (S (length l) + d - 1 - 0)%nat with (length l + 1 * d)%nat by lia.
      rewrite Nat.div_add by lia. lia.
    + rewrite IH by lia. f_equal. lia.
Qed.

Lemma lookup_slice_step {A} (d : nat) (l : list A) : ∀ k i,
  (k < d)%nat → slice_step d k l !! i = l !! (k + i * d)%nat.
Proof.
  induction l as [|a l IH]; intros k i Hk; simpl.
  - by rewrite !lookup_nil.
  - destruct k as [|k'].
    + destruct i as [|j]; [done|]. simpl. rewrite IH by lia.
      replace (d + j * d)%nat with (S (d - 1 + j * d)) by lia. done.
    + rewrite IH by lia. done.
Qed.

Lemma slice_step_one {A} (l : list A) : slice_step 1 0 l = l.
Proof. induction l as [|a l IH]; simpl; [done|]. by rewrite IH. Qed.

Lemma columns_downsample_step d df :
  columns (downsample_step d df) = columns df.
Proof.
  unfold downsample_step. case_bool_decide; [|done].
  unfold columns. simpl. rewrite <- list_fmap_compose. done.
Qed.

Lemma len_downsample_step d df :
  d > 1 →
  len (downsample_step d df) = ((len df + Z.to_nat d - 1) / Z.to_nat d)%nat.
Proof.
  intros Hd. unfold downsample_step. rewrite bool_decide_eq_true_2 by done.
  unfold len. simpl. rewrite length_seq. unfold len. simpl.
  rewrite length_slice_step by lia. f_equal. lia.
Qed.

Lemma row_downsample_step d df i :
  d > 1 → row (downsample_step d df) i = row df (i * Z.to_nat d).
Proof.
  intros Hd. unfold downsample_step. rewrite bool_decide_eq_true_2 by done.
  unfold row. simpl. rewrite <- list_fmap_compose. apply list_fmap_ext.
  intros j col _. simpl. rewrite lookup_slice_step by lia. done.
Qed.

(** C6: downsampling by 1 leaves the table as it is; downsampling an N-row
    table by d > 1 leaves m = ceil(N/d) rows, that is N <= m*d < N+d, the
    row at position i being the original row at position i*d, under the
    same column names and with the index renumbered 0, 1, ..., m-1. *)
Theorem downsampling_rows (df : DataFrame) :
  downsample_step 1 df = df ∧
  ∀ d : Z, d > 1 →
    let n := Z.to_nat d in
    let df' := downsample_step d df in
    (len df ≤ len df' * n < len df + n)%nat ∧
    df_index df' = seq 0 (len df') ∧
    columns df' = columns df ∧
    (∀ i, row df' i = row df (i * n)) ∧
    (well_formed df → well_formed df').
Proof.
  split; [done|]. intros d Hd n df'.
  assert (Hlen : len df' = ((len df + n - 1) / n)%nat)
    by (by apply len_downsample_step).
  split; [|split; [|split; [|split]]].
  - rewrite Hlen.
    pose proof (Nat.div_mod_eq (len df + n - 1) n) as Hdm.
    pose proof (Nat.mod_upper_bound (len df + n - 1) n) as Hub. nia.
  - unfold df', downsample_step. rewrite bool_decide_eq_true_2 by done.
    unfold reset_index, len. simpl. by rewrite length_seq.
  - apply columns_downsample_step.
  - intros i. by apply row_downsample_step.
  - intros Hwf. unfold well_formed in *. rewrite Hlen.
    unfold df', downsample_step. rewrite bool_decide_eq_true_2 by done. simpl.
    rewrite Forall_fmap. eapply Forall_impl; [exact Hwf|].
    intros col Hcol. simpl. rewrite length_slice_step by lia.
    rewrite Hcol. f_equal. lia.
Qed.

Lemma downsampling_rows_witness :
  let df := Frame [0; 1; 2; 3; 4]%nat
              [Column "Time" true [Num 0; Num 1; Num 2; Num 3; Num 4];
               Column "Fz" true [Num 10; Num 11; Num 12; Num 13; Num 14]] in
  2 > 1 ∧ len (downsample_step 2 df) = 3%nat ∧
  df_index (downsample_step 2 df) = [0; 1; 2]%nat ∧
  row (downsample_step 2 df) 2 = [Some (Num 4); Some (Num 14)].
Proof.
  intros df. assert (Hd : 2 > 1) by lia.
  destruct (proj2 (downsampling_rows df) 2 Hd) as (Hlen & Hidx & _ & Hrow & _).
  split; [done|]. split; [reflexivity|]. split; [by rewrite Hidx|].
  by rewrite Hrow.
Defined.

(** ** The traces of the figure *)

Lemma getitem_Ok df c : c ∈ columns df → getitem df c = Ok (cells_of df c).
Proof.
  intros Hc. unfold cells_of, getitem.
  destruct (list_find _ (df_columns df)) as [[i col]|] eqn:Hfind; [done|].
  exfalso. apply list_find_None in Hfind. rewrite Forall_forall in Hfind.
  unfold columns in Hc. apply list_elem_of_fmap in Hc as (col & -> & Hcol).
  by apply (Hfind col).
Qed.

Lemma for_each_add (df : DataFrame) (mk : string → Scatter)
    (body : list Scatter * list nat → string → res (list Scatter * list nat))
    (cols : list string) :
  (∀ st c, c ∈ columns df →
     body st c = Ok (st.1 ++ [mk c], st.2 ++ [length st.1])) →
  Forall (λ c, c ∈ columns df) cols →
  ∀ fig idx,
    for_each body (fig, idx) cols
    = Ok (fig ++ (mk <$> cols), idx ++ seq (length fig) (length cols)).
Proof.
  intros Hbody. induction cols as [|c cols IH]; intros Hcols fig idx; simpl.
  - by rewrite !app_nil_r.
  - apply Forall_cons in Hcols as [Hc Hcols].
    rewrite (Hbody _ c Hc). simpl. rewrite (IH Hcols).
    rewrite <- !app_assoc, length_app. simpl.
    by rewrite Nat.add_1_r.
Qed.

Lemma length_add_trace (fig : list Scatter) tr :
  (length (add_trace fig tr) - 1)%nat = length fig.
Proof. unfold add_trace. rewrite length_app. simpl. lia. Qed.

Section MainFacts.

Context (parse_number : string → option Q).

Lemma eeg_body_Ok df t st c :
  t ∈ columns df → c ∈ columns df →
  eeg_body df t st c = Ok (st.1 ++ [eeg_trace df t c], st.2 ++ [length st.1]).
Proof.
  intros Ht Hc. unfold eeg_body.
  rewrite (getitem_Ok df t Ht), (getitem_Ok df c Hc). simpl.
  by rewrite length_add_trace.
Qed.

Lemma ecg_body_Ok df t st c :
  t ∈ columns df → c ∈ columns df →
  ecg_body parse_number df t st c
  = Ok (st.1 ++ [ecg_trace parse_number df t c], st.2 ++ [length st.1]).
Proof.
  intros Ht Hc. unfold ecg_body.
  rewrite (getitem_Ok df t Ht), (getitem_Ok df c Hc). simpl.
  by rewrite length_add_trace.
Qed.

Lemma cm_body_Ok df t st c :
  t ∈ columns df → c ∈ columns df →
  cm_body parse_number df t st c
  = Ok (st.1 ++ [cm_trace parse_number df t c], st.2 ++ [length st.1]).
Proof.
  intros Ht Hc. unfold cm_body.
  rewrite (getitem_Ok df t Ht), (getitem_Ok df c Hc). simpl.
  by rewrite length_add_trace.
Qed.

(** [main] either stops at the fatal check or writes the figure whose
    traces are the EEG, ECG and CommonMode series in this order. *)
Lemma main_result args df r :
  detect df = Ok r →
  let df' := downsample_step (downsample args) df in
  match traces parse_number df' r with
  | [] => main parse_number args df = Raise (SystemExit NO_CHANNELS)
  | _ :: _ =>
    ∃ w, main parse_number args df = Ok w ∧ path w = output args
         ∧ data (figure w) = traces parse_number df' r
  end.
Proof.
  intros Hr df'.
  destruct (roles_subseteq df r Hr) as (Ht & Heeg & Hecg & Hcm).
  rewrite <- (columns_downsample_step (downsample args) df) in Ht, Heeg, Hecg, Hcm.
  fold df' in Ht, Heeg, Hecg, Hcm.
  unfold main. rewrite Hr. simpl. fold df'.
  rewrite (for_each_add df' (eeg_trace df' (time_col r)));
    [|intros; by apply eeg_body_Ok | by apply Forall_forall].
  simpl.
  rewrite (for_each_add df' (ecg_trace parse_number df' (time_col r)));
    [|intros; by apply ecg_body_Ok | by apply Forall_forall].
  simpl.
  rewrite (for_each_add df' (cm_trace parse_number df' (time_col r)));
    [|intros; by apply cm_body_Ok | by apply Forall_forall].
  simpl. unfold traces.
  destruct (_ ++ _ ++ _) as [|tr trs] eqn:Htr.
  - rewrite app_assoc in Htr. rewrite Htr. done.
  - rewrite app_assoc in Htr. rewrite Htr. eexists. split; [done|]. done.
Qed.

Lemma traces_nil df r :
  traces parse_number df r = [] ↔ eeg_cols r = [] ∧ ecg_cols r = [] ∧ cm_cols r = [].
Proof.
  unfold traces. split.
  - intros (H1 & (H2 & H3)%app_eq_nil)%app_eq_nil.
    apply fmap_nil_inv in H1, H2, H3. done.
  - intros (-> & -> & ->). done.
Qed.

End MainFacts.

(** ** The fatal check *)

(** C7: for a table with at least one column, when the EEG, ECG and
    CommonMode groups are all empty the run stops at the fatal check: the
    exit status is not zero, the diagnostic is the message of the check,
    which reads "no plottable channels found" up to case, and no file is
    written; when a group is not empty the run completes with exit status 0
    and writes the figure to the output path. *)
Theorem fatal_check parse_number (args : Args) (df : DataFrame) :
  columns df ≠ [] →
  ∃ r, detect df = Ok r ∧
    (eeg_cols r = [] ∧ ecg_cols r = [] ∧ cm_cols r = [] →
       exit_status (main parse_number args df) ≠ 0 ∧
       diagnostic (main parse_number args df) = Some NO_CHANNELS ∧
       occurs "no plottable channels found" NO_CHANNELS ∧
       output_file (main parse_number args df) = None) ∧
    (¬ (eeg_cols r = [] ∧ ecg_cols r = [] ∧ cm_cols r = []) →
       exit_status (main parse_number args df) = 0 ∧
       ∃ w, output_file (main parse_number args df) = Some w
            ∧ path w = output args ∧ data (figure w) ≠ []).
Proof.
  intros Hne. destruct (detect_total df Hne) as [r Hr]. exists r.
  split; [done|].
  pose proof (main_result parse_number args df r Hr) as Hmain. simpl in Hmain.
  pose proof (traces_nil parse_number
                (downsample_step (downsample args) df) r) as Hnil.
  destruct (traces _ _ r) as [|tr trs].
  - split.
    + intros _. rewrite Hmain. simpl. repeat split; try done.
      exists [], (chars "No plottable channels found"), (chars "."). done.
    + intros Hsome. destruct Hsome. by apply Hnil.
  - destruct Hmain as (w & Hw & Hpath & Hdata). split.
    + intros Hempty. apply Hnil in Hempty. discriminate.
    + intros _. rewrite Hw. simpl. split; [done|]. exists w.
      rewrite Hdata. done.
Qed.

Lemma fatal_check_witness :
  (columns (numeric_table ["t"; "trigger"; "Fp1"]) ≠ [] ∧
   exit_status (main read_decimal (MkArgs "in.csv" "out.html" 1)
                  (numeric_table ["t"; "trigger"; "Fp1"])) = 0) ∧
  (columns (numeric_table ["t"; "trigger"]) ≠ [] ∧
   diagnostic (main read_decimal (MkArgs "in.csv" "out.html" 1)
                 (numeric_table ["t"; "trigger"])) = Some NO_CHANNELS).
Proof.
  split.
  - split; [done|].
    destruct (fatal_check read_decimal (MkArgs "in.csv" "out.html" 1)
                (numeric_table ["t"; "trigger"; "Fp1"])) as (r & Hr & _ & Hok);
      [done|].
    apply Hok. vm_compute in Hr. injection Hr as <-. simpl.
    intros (H & _). discriminate.
  - split; [done|].
    destruct (fatal_check read_decimal (MkArgs "in.csv" "out.html" 1)
                (numeric_table ["t"; "trigger"])) as (r & Hr & Hfatal & _);
      [done|].
    apply Hfatal. vm_compute in Hr. injection Hr as <-. done.
Defined.

(** ** Series values *)

(** C8: when the run completes, the traces of the figure are one series per
    EEG column, then one per ECG column, then one per CommonMode column, all
    against the cells of the Time column.  An EEG series carries the cells
    of its column unchanged, under the name of the column, on the primary
    axis.  An ECG or CommonMode series carries each cell of its column
    coerced to a number and divided by 1000, a cell that does not read as a
    number giving the missing-value marker; it is on the secondary axis and
    its name is the name of the column followed by " (mV)", respectively
    " (mV, CM)". *)
Theorem series_values parse_number (args : Args) (df : DataFrame) (r : Roles) :
  detect df = Ok r →
  ¬ (eeg_cols r = [] ∧ ecg_cols r = [] ∧ cm_cols r = []) →
  let df' := downsample_step (downsample args) df in
  let t := time_col r in
  (∃ w, main parse_number args df = Ok w ∧
     data (figure w) =
       ((λ c, MkScatter (cells_of df' t) (cells_of df' c) c "lines" None false)
          <$> eeg_cols r)
       ++ ((λ c, MkScatter (cells_of df' t)
                   (millivolts parse_number <$> cells_of df' c)
                   (c +:+ " (mV)") "lines" None true) <$> ecg_cols r)
       ++ ((λ c, MkScatter (cells_of df' t)
                   (millivolts parse_number <$> cells_of df' c)
                   (c +:+ " (mV, CM)") "lines" (Some "dot") true) <$> cm_cols r)) ∧
  (∀ c, c = t ∨ c ∈ eeg_cols r ∨ c ∈ ecg_cols r ∨ c ∈ cm_cols r →
        getitem df' c = Ok (cells_of df' c)) ∧
  (∀ q, millivolts parse_number (Num q) = Num (q / 1000)) ∧
  millivolts parse_number NaN = NaN ∧
  (∀ s, millivolts parse_number (Str s) =
        match parse_number s with
        | Some q => Num (q / 1000)
        | None => NaN
        end).
Proof.
  intros Hr Hsome df' t.
  split; [|split; [|done]].
  - pose proof (main_result parse_number args df r Hr) as Hmain. simpl in Hmain.
    fold df' in Hmain.
    pose proof (traces_nil parse_number df' r) as Hnil.
    destruct (traces parse_number df' r) as [|tr trs] eqn:Htr.
    + destruct Hsome. by apply Hnil.
    + destruct Hmain as (w & Hw & _ & Hdata). exists w. split; [done|].
      rewrite Hdata. done.
  - destruct (roles_subseteq df r Hr) as (Ht & Heeg & Hecg & Hcm).
    intros c Hc. apply getitem_Ok. unfold df'.
    rewrite columns_downsample_step.
    destruct Hc as [->|[Hc|[Hc|Hc]]]; auto.
Qed.

Lemma series_values_witness :
  let df := Frame [0; 1]%nat
              [Column "Time" true [Num 0; Num 1];
               Column "Fz" true [Num 10; Num 20];
               Column "X1" false [Str "1500"; Str "n/a"];
               Column "CM" true [Num 3000; NaN]] in
  let r := MkRoles "Time" ["Fz"] ["X1"] ["CM"] in
  detect df = Ok r ∧
  ¬ (eeg_cols r = [] ∧ ecg_cols r = [] ∧ cm_cols r = []) ∧
  ∃ w, main read_decimal (MkArgs "in.csv" "out.html" 1) df = Ok w ∧
       data (figure w) =
         [MkScatter [Num 0; Num 1] [Num 10; Num 20] "Fz" "lines" None false;
          MkScatter [Num 0; Num 1] [Num (1500 / 1000); NaN]
                    "X1 (mV)" "lines" None true;
          MkScatter [Num 0; Num 1] [Num (3000 / 1000); NaN]
                    "CM (mV, CM)" "lines" (Some "dot") true].
Proof.
  intros df r.
  assert (Hr : detect df = Ok r) by (vm_compute; reflexivity).
  assert (Hsome : ¬ (eeg_cols r = [] ∧ ecg_cols r = [] ∧ cm_cols r = []))
    by (intros (H & _); discriminate).
  split; [done|]. split; [done|].
  destruct (series_values read_decimal (MkArgs "in.csv" "out.html" 1) df r
              Hr Hsome) as ((w & Hw & Hdata) & _).
  exists w. split; [done|]. rewrite Hdata. vm_compute. reflexivity.
Defined.

(** ** The scenario [Time,Fz,Cz,X1,CM1] *)

(** C1, as the code has it: for the header [Time,Fz,Cz,X1,CM1] with numeric
    cells and downsample factor 1, the Time column is "Time", the EEG group
    is Fz, Cz, the ECG group is X1 and the CommonMode group is empty, [CM1]
    being left without a role because [cm] is not a whole word in it; the
    EEG series carry the raw values of their columns and the ECG series the
    raw values divided by 1000. *)
Theorem scenario_roles_and_series parse_number
    (index : list nat) (time fz cz x1 cm1 : list Q) (inp out : string) :
  let df := scenario index time fz cz x1 cm1 in
  let r := MkRoles "Time" ["Fz"; "Cz"] ["X1"] [] in
  detect df = Ok r ∧
  unclassified df r = ["CM1"] ∧
  ∃ w, main parse_number (MkArgs inp out 1) df = Ok w ∧
       data (figure w) =
         [MkScatter (Num <$> time) (Num <$> fz) "Fz" "lines" None false;
          MkScatter (Num <$> time) (Num <$> cz) "Cz" "lines" None false;
          MkScatter (Num <$> time) ((λ q, Num (q / 1000)) <$> x1)
                    "X1 (mV)" "lines" None true].
Proof.
  intros df r.
  assert (Hr : detect df = Ok r) by (vm_compute; reflexivity).
  split; [done|]. split; [vm_compute; reflexivity|].
  pose proof (main_result parse_number (MkArgs inp out 1) df r Hr) as Hmain.
  simpl in Hmain. destruct Hmain as (w & Hw & _ & Hdata).
  exists w. split; [done|]. rewrite Hdata.
  unfold traces, eeg_trace, ecg_trace, cm_trace, r. simpl.
  change (downsample_step 1 df) with df.
  change (cells_of df "Time") with (Num <$> time).
  change (cells_of df "Fz") with (Num <$> fz).
  change (cells_of df "Cz") with (Num <$> cz).
  change (cells_of df "X1") with (Num <$> x1).
  rewrite <- list_fmap_compose. done.
Qed.

(** C1, as stated, fails: with ten numeric rows the CommonMode group is not
    [CM1]. *)
Lemma scenario_cm_counterexample :
  ¬ ∃ r, detect (scenario (seq 0 10) ten ten ten ten ten) = Ok r
         ∧ cm_cols r = ["CM1"].
Proof.
  intros (r & Hr & Hcm). vm_compute in Hr. injection Hr as <-. discriminate.
Qed.

(** ** Factors that do not downsample *)

(** C10: for a factor d <= 1, zero and the negative integers included, the
    downsampling step returns the table it is given and the run is the run
    with factor 1; a table changes only for d > 1. *)
Theorem downsample_noop parse_number (d : Z) (df : DataFrame) :
  ((d ≤ 1)%Z →
     downsample_step d df = df ∧
     ∀ inp out, main parse_number (MkArgs inp out d) df
                = main parse_number (MkArgs inp out 1) df) ∧
  (downsample_step d df ≠ df → d > 1).
Proof.
  assert (Hstep : (d ≤ 1)%Z → downsample_step d df = df).
  { intros Hd. unfold downsample_step. by rewrite bool_decide_eq_false_2 by lia. }
  split.
  - intros Hd. split; [by apply Hstep|]. intros inp out.
    unfold main. simpl. by rewrite (Hstep Hd).
  - intros Hne. destruct (decide (d ≤ 1)%Z) as [Hd|Hd]; [|lia].
    destruct Hne. by apply Hstep.
Qed.

Lemma downsample_noop_witness :
  let df := scenario (seq 0 10) ten ten ten ten ten in
  ((0 ≤ 1)%Z ∧ downsample_step 0 df = df) ∧
  ((-3 ≤ 1)%Z ∧ downsample_step (-3) df = df) ∧
  (downsample_step 4 df ≠ df ∧ 4 > 1).
Proof.
  intros df. split; [|split].
  - assert (H : (0 ≤ 1)%Z) by lia. split; [done|].
    exact (proj1 (proj1 (downsample_noop read_decimal 0 df) H)).
  - assert (H : (-3 ≤ 1)%Z) by lia. split; [done|].
    exact (proj1 (proj1 (downsample_noop read_decimal (-3) df) H)).
  - assert (H : downsample_step 4 df ≠ df) by (vm_compute; discriminate).
    split; [done|].
    exact (proj2 (downsample_noop read_decimal 4 df) H).
Defined.

(** ** Reading the file *)

Lemma readlines_ok s : lines_ok (readlines s).
Proof.
  induction s as [|c s IH]; simpl; [constructor|].
  case_bool_decide as Hc.
  - apply lines_ok_cons; [|done]. exists []. split; [by rewrite Hc|].
    apply not_elem_of_nil.
  - destruct (readlines s) as [|l ls].
    + apply lines_ok_last. split; [done|].
      intros H%list_elem_of_singleton. congruence.
    + inversion IH as [|l' [Hne Hl]|l' ls' (body & -> & Hbody) Hls]; subst.
      * apply lines_ok_last. split; [done|].
        intros [H|?]%elem_of_cons; [congruence | done].
      * apply lines_ok_cons; [|done]. exists (c :: body). split; [done|].
        intros [H|?]%elem_of_cons; [congruence | done].
Qed.

Lemma concat_readlines s : concat (readlines s) = s.
Proof.
  induction s as [|c s IH]; simpl; [done|].
  case_bool_decide as Hc; simpl; [by rewrite IH|].
  destruct (readlines s) as [|l ls]; simpl in *; by rewrite <- IH.
Qed.

Lemma readlines_unterminated l : unterminated l → readlines l = [l].
Proof.
  intros [Hne Hl]. induction l as [|c l IH]; [done|]. simpl.
  rewrite bool_decide_eq_false_2 by (intros Hc; apply Hl; rewrite Hc; left).
  destruct l as [|c' l']; [done|].
  rewrite IH; [done | done |]. intros H. apply Hl. by right.
Qed.

Lemma readlines_terminated body rest :
  LF ∉ body →
  readlines ((body ++ [LF]) ++ rest) = (body ++ [LF]) :: readlines rest.
Proof.
  intros Hbody. induction body as [|c body IH]; simpl.
  - done.
  - rewrite bool_decide_eq_false_2 by (intros Hc; apply Hbody; rewrite Hc; left).
    rewrite IH; [done|]. intros H. apply Hbody. by right.
Qed.

Lemma readlines_concat ls : lines_ok ls → readlines (concat ls) = ls.
Proof.
  induction 1 as [|l Hl|l ls (body & -> & Hbody) Hls IH]; simpl.
  - done.
  - rewrite app_nil_r. by apply readlines_unterminated.
  - rewrite readlines_terminated by done. by rewrite IH.
Qed.

Lemma lines_ok_filter (P : list ascii → Prop) `{∀ l, Decision (P l)} ls :
  lines_ok ls → lines_ok (filter P ls).
Proof.
  induction 1 as [|l Hl|l ls Hl Hls IH].
  - constructor.
  - rewrite filter_cons, filter_nil. case_decide; by constructor.
  - rewrite filter_cons. case_decide; [by apply lines_ok_cons | done].
Qed.

Lemma readlines_skip_comments text :
  readlines (skip_comments text)
  = filter (λ line, is_comment line = false) (readlines text).
Proof.
  unfold skip_comments. apply readlines_concat, lines_ok_filter, readlines_ok.
Qed.

Lemma lstrip_spec s :
  ∃ ws, s = ws ++ lstrip s ∧ Forall (λ c, is_space c = true) ws
        ∧ from_option is_space false (head (lstrip s)) = false.
Proof.
  induction s as [|c s (ws & Hs & Hws & Hhd)]; simpl.
  - exists []. done.
  - destruct (is_space c) eqn:Hc.
    + exists (c :: ws). split; [by rewrite Hs at 1|]. split; [|done].
      by constructor.
    + exists []. split; [done|]. split; [constructor|]. simpl. done.
Qed.

Lemma universal_newlines_no_CR s : CR ∉ universal_newlines s.
Proof.
  assert (H : ∀ n s, (length s ≤ n)%nat → CR ∉ universal_newlines s).
  { clear s. induction n as [|n IH]; intros s Hn.
    - destruct s; [apply not_elem_of_nil | simpl in Hn; lia].
    - destruct s as [|c s]; simpl; [apply not_elem_of_nil|].
      simpl in Hn. case_bool_decide as Hc.
      + destruct s as [|c' s'].
        * intros [?|?%elem_of_nil]%elem_of_cons; done.
        * simpl in Hn. intros [?|Hin]%elem_of_cons; [done|].
          case_bool_decide; revert Hin; apply IH; simpl; lia.
      + intros [?|Hin]%elem_of_cons; [done|]. revert Hin. apply IH. lia. }
  by apply (H (length s)).
Qed.

Lemma universal_newlines_id s : CR ∉ s → universal_newlines s = s.
Proof.
  induction s as [|c s IH]; intros Hs; simpl; [done|].
  rewrite bool_decide_eq_false_2 by (intros Hc; apply Hs; rewrite Hc; left).
  rewrite IH; [done|]. intros H. apply Hs. by right.
Qed.

Lemma not_elem_of_concat_filter (a : ascii) (P : list ascii → Prop)
    `{∀ l, Decision (P l)} ls :
  a ∉ concat ls → a ∉ concat (filter P ls).
Proof.
  induction ls as [|l ls IH]; simpl; [done|].
  rewrite elem_of_app. intros Ha. rewrite filter_cons.
  case_decide; simpl; [rewrite elem_of_app|]; tauto.
Qed.

Lemma filter_Forall_id {A} (P : A → Prop) `{∀ a, Decision (P a)} (l : list A) :
  Forall P l → filter P l = l.
Proof.
  induction 1 as [|a l Ha Hl IH]; [done|].
  by rewrite filter_cons_True, IH.
Qed.

Lemma ascii_text_universal_newlines s :
  ascii_text s → ascii_text (universal_newlines s).
Proof.
  unfold ascii_text.
  assert (H : ∀ n s, (length s ≤ n)%nat → Forall (λ a, is_ascii a = true) s →
                     Forall (λ a, is_ascii a = true) (universal_newlines s)).
  { clear s. induction n as [|n IH]; intros s Hn Hs.
    - destruct s; [constructor | simpl in Hn; lia].
    - destruct s as [|c s]; simpl; [constructor|].
      simpl in Hn. rewrite Forall_cons in Hs. destruct Hs as [Hc Hs].
      case_bool_decide.
      + constructor; [done|]. destruct s as [|c' s']; [constructor|].
        simpl in Hn. rewrite Forall_cons in Hs. destruct Hs as [Hc' Hs'].
        case_bool_decide; apply IH; simpl; try lia; try done.
        by constructor.
      + constructor; [done|]. apply IH; [lia | done]. }
  by apply (H (length s)).
Qed.

Lemma ascii_text_concat_filter (P : list ascii → Prop)
    `{∀ l, Decision (P l)} ls :
  ascii_text (concat ls) → ascii_text (concat (filter P ls)).
Proof.
  unfold ascii_text. induction ls as [|l ls IH]; simpl; [done|].
  rewrite Forall_app. intros [Hl Hls]. rewrite filter_cons.
  case_decide; simpl; [rewrite Forall_app|]; auto.
Qed.

(** X1: for a file whose bytes are all ASCII, the text that
    [read_csv_skip_comments] hands to the CSV reader is the lines of the
    file that are not comments, in their order and unchanged, whatever
    their place in the file; it is ASCII again, has no carriage return and
    none of its lines is a comment. *)
Theorem read_csv_skip_comments_text
    (read_csv : list ascii → res DataFrame) (content : list ascii) :
  ascii_text content →
  ∃ text,
    read_csv_skip_comments read_csv content = read_csv text ∧
    readlines text
    = filter (λ line, is_comment line = false)
             (readlines (universal_newlines content)) ∧
    Forall (λ line, is_comment line = false) (readlines text) ∧
    (CR ∉ text) ∧
    ascii_text text.
Proof.
  intros Hascii.
  exists (skip_comments (universal_newlines content)).
  split; [done|]. split; [apply readlines_skip_comments|].
  split; [|split].
  - rewrite readlines_skip_comments. apply Forall_forall.
    intros l Hl. by apply list_elem_of_filter in Hl as [Hl _].
  - unfold skip_comments. apply not_elem_of_concat_filter.
    rewrite concat_readlines. apply universal_newlines_no_CR.
  - unfold skip_comments. apply ascii_text_concat_filter.
    rewrite concat_readlines. by apply ascii_text_universal_newlines.
Qed.

Lemma read_csv_skip_comments_text_witness :
  let content :=
    chars "# recorded" ++ [CR; LF] ++ chars "Time,Fz" ++ [CR; LF]
    ++ chars "  # gain 2" ++ [CR; LF] ++ chars "0,1" ++ [CR; LF] in
  ascii_text content ∧
  ∃ text,
    read_csv_skip_comments (λ _, Ok (Frame [] [])) content
    = (λ _, Ok (Frame [] [])) text ∧
    readlines text = [chars "Time,Fz" ++ [LF]; chars "0,1" ++ [LF]].
Proof.
  intros content.
  assert (Hascii : ascii_text content) by (repeat constructor).
  split; [done|].
  destruct (read_csv_skip_comments_text (λ _, Ok (Frame [] [])) content Hascii)
    as (text & Hread & Hlines & _).
  exists text. split; [done|]. rewrite Hlines. reflexivity.
Defined.

(** X2: skipping comments leaves a text without comment lines as it is,
    and so skipping twice is skipping once. *)
Theorem skip_comments_fixpoint (text : list ascii) :
  (Forall (λ line, is_comment line = false) (readlines text) →
     skip_comments text = text) ∧
  skip_comments (skip_comments text) = skip_comments text.
Proof.
  assert (Hfix : ∀ t, Forall (λ line, is_comment line = false) (readlines t) →
                      skip_comments t = t).
  { intros t Ht. unfold skip_comments.
    rewrite filter_Forall_id by done. apply concat_readlines. }
  split; [apply Hfix|]. apply Hfix.
  rewrite readlines_skip_comments. apply Forall_forall.
  intros l Hl. by apply list_elem_of_filter in Hl as [Hl _].
Qed.

Lemma skip_comments_fixpoint_witness :
  let text := chars "a,b" ++ [LF] ++ chars "1,2 # two" ++ [LF] in
  Forall (λ line, is_comment line = false) (readlines text) ∧
  skip_comments text = text.
Proof.
  intros text.
  assert (H : Forall (λ line, is_comment line = false) (readlines text))
    by (repeat constructor).
  split; [done|]. exact (proj1 (skip_comments_fixpoint text) H).
Defined.

(** X3: a line over the ASCII range is a comment exactly when it is some
    whitespace followed by [#]; a [#] after anything else does not make the
    line a comment. *)
Theorem is_comment_spec (line : list ascii) :
  ascii_text line →
  is_comment line = true ↔
  ∃ ws rest, line = ws ++ "#"%char :: rest ∧ Forall (λ c, is_space c = true) ws.
Proof.
  intros _. unfold is_comment. rewrite starts_with_spec. split.
  - intros [post Hpost]. destruct (lstrip_spec line) as (ws & Hl & Hws & _).
    exists ws, post. split; [|done]. rewrite Hl at 1. by rewrite Hpost.
  - intros (ws & rest & -> & Hws). exists rest.
    induction ws as [|c ws IH]; simpl; [done|].
    apply Forall_cons in Hws as [Hc Hws]. rewrite Hc. by apply IH.
Qed.

Lemma is_comment_spec_witness :
  ascii_text (chars "  # note, not data") ∧
  is_comment (chars "  # note, not data") = true ∧
  ∃ ws rest, chars "  # note, not data" = ws ++ "#"%char :: rest
             ∧ Forall (λ c, is_space c = true) ws.
Proof.
  assert (Hascii : ascii_text (chars "  # note, not data"))
    by (repeat constructor).
  split; [done|]. split; [reflexivity|].
  exact (proj1 (is_comment_spec (chars "  # note, not data") Hascii) eq_refl).
Defined.

(** ** The order of the EEG group *)

Lemma filter_ext_elem {A} (P Q : A → Prop)
    `{∀ a, Decision (P a)} `{∀ a, Decision (Q a)} (l : list A) :
  (∀ a, a ∈ l → P a ↔ Q a) → filter P l = filter Q l.
Proof.
  induction l as [|a l IH]; intros Hext; [done|].
  rewrite !filter_cons.
  assert (Ha : P a ↔ Q a) by (apply Hext; left).
  rewrite IH by (intros b Hb; apply Hext; by right).
  repeat case_decide; tauto.
Qed.

Lemma dict_fold_NoDup (found keys : list string) :
  NoDup keys →
  NoDup (foldl (λ keys c, if bool_decide (c ∈ keys) then keys else keys ++ [c])
               keys found).
Proof.
  revert keys. induction found as [|a found IH]; intros keys Hkeys; simpl; [done|].
  apply IH. case_bool_decide as Ha; [done|].
  apply NoDup_app. split; [done|]. split; [|apply NoDup_singleton].
  intros c Hc ->%list_elem_of_singleton. done.
Qed.

Lemma dict_fold_fresh (found keys : list string) :
  NoDup found →
  foldl (λ keys c, if bool_decide (c ∈ keys) then keys else keys ++ [c]) keys found
  = keys ++ filter (λ c, c ∉ keys) found.
Proof.
  revert keys. induction found as [|a found IH]; intros keys Hnd; simpl.
  - by rewrite filter_nil, app_nil_r.
  - apply NoDup_cons in Hnd as [Ha Hnd]. rewrite IH by done.
    case_bool_decide as Hk.
    + by rewrite filter_cons_False by tauto.
    + rewrite filter_cons_True by done. rewrite <- app_assoc. simpl.
      do 2 f_equal. apply filter_ext_elem. intros c Hc.
      rewrite elem_of_app, list_elem_of_singleton.
      split; [tauto|]. intros Hck [?| ->]; done.
Qed.

Lemma eeg_rank_before pre suf c :
  (∃ j, (j < length pre)%nat ∧ eeg_rank (pre ++ suf) c = Some j) ↔
  Exists (λ name, search (eeg_pattern name) c = true) pre.
Proof.
  unfold eeg_rank. split.
  - intros (j & Hj & Hr).
    destruct (list_find _ (pre ++ suf)) as [[i name]|] eqn:Hfind; [|done].
    simpl in Hr. injection Hr as ->.
    apply list_find_Some in Hfind as (Hi & HP & _).
    rewrite lookup_app_l in Hi by done.
    apply Exists_exists. exists name. split; [|done].
    eapply list_elem_of_lookup_2. done.
  - intros (name & Hname & HP)%Exists_exists.
    destruct (list_find_elem_of (λ name, search (eeg_pattern name) c = true)
                pre name Hname HP) as [[i x] Hfind].
    exists i. split.
    + apply list_find_Some in Hfind as (Hi & _). by eapply lookup_lt_Some.
    + assert (list_find (λ name, search (eeg_pattern name) c = true) (pre ++ suf)
              = Some (i, x)) as -> by (apply list_find_app_Some; by left).
      done.
Qed.

Lemma eeg_rank_here pre n suf c :
  eeg_rank (pre ++ n :: suf) c = Some (length pre) ↔
  search (eeg_pattern n) c = true
  ∧ ¬ Exists (λ name, search (eeg_pattern name) c = true) pre.
Proof.
  unfold eeg_rank. split.
  - intros Hr.
    destruct (list_find _ (pre ++ n :: suf)) as [[i name]|] eqn:Hfind; [|done].
    simpl in Hr. injection Hr as ->.
    apply list_find_Some in Hfind as (Hi & HP & Hbefore).
    rewrite list_lookup_middle in Hi by done. injection Hi as <-.
    split; [done|]. intros (name & Hname & HPn)%Exists_exists.
    apply list_elem_of_lookup in Hname as [j Hj].
    pose proof (lookup_lt_Some _ _ _ Hj) as Hlt.
    apply (Hbefore j name); [|done|done].
    by rewrite lookup_app_l.
  - intros [HP Hnone].
    assert (list_find (λ name, search (eeg_pattern name) c = true)
              (pre ++ n :: suf) = Some (length pre, n)) as ->; [|done].
    apply list_find_app_Some. right.
    split; [done|]. split.
    + apply list_find_None. apply Forall_forall. intros name Hname HPn.
      apply Hnone, Exists_exists. eauto.
    + rewrite Nat.sub_diag. simpl. by rewrite decide_True.
Qed.

Lemma found_rank (cols suf : list string) : ∀ pre keys,
  NoDup cols →
  (∀ c, c ∈ keys ↔
        c ∈ cols ∧ ∃ j, (j < length pre)%nat ∧ eeg_rank (pre ++ suf) c = Some j) →
  foldl (λ keys c, if bool_decide (c ∈ keys) then keys else keys ++ [c]) keys
        (name ← suf; filter (λ c, search (eeg_pattern name) c = true) cols)
  = keys ++ (j ← seq (length pre) (length suf);
             filter (λ c, eeg_rank (pre ++ suf) c = Some j) cols).
Proof.
  induction suf as [|n suf IH]; intros pre keys Hnd Hkeys.
  - simpl. by rewrite app_nil_r.
  - cbn [length seq]. rewrite !bind_cons, foldl_app.
    rewrite (dict_fold_fresh
               (filter (λ c, search (eeg_pattern n) c = true) cols) keys)
      by (by apply NoDup_filter).
    rewrite list_filter_filter.
    assert (Hnew : filter (λ c, (c ∉ keys) ∧ search (eeg_pattern n) c = true) cols
                   = filter (λ c, eeg_rank (pre ++ n :: suf) c = Some (length pre))
                            cols).
    { apply filter_ext_elem. intros c Hc.
      rewrite eeg_rank_here, Hkeys, eeg_rank_before. tauto. }
    rewrite Hnew.
    specialize (IH (pre ++ [n])
                  (keys ++ filter (λ c, eeg_rank (pre ++ n :: suf) c
                                        = Some (length pre)) cols) Hnd).
    rewrite <- !app_assoc in IH. simpl in IH.
    rewrite length_app in IH. simpl in IH. rewrite Nat.add_1_r in IH.
    rewrite IH; [done|].
    intros c. rewrite elem_of_app, list_elem_of_filter, Hkeys. split.
    + intros [(Hc & j & Hj & Hr) | (Hr & Hc)].
      * split; [done|]. exists j. split; [lia | done].
      * split; [done|]. exists (length pre). split; [lia | done].
    + intros (Hc & j & Hj & Hr).
      destruct (decide (j = length pre)) as [->|Hne].
      * right. done.
      * left. split; [done|]. exists j. split; [lia | done].
Qed.

(** X4: [find_eeg_cols] never lists a column twice, whatever number of
    labels its name matches, and it lists exactly the columns of the table
    that the pattern of one of the 21 labels matches; among the names over
    the ASCII range these are the columns whose name has one of the labels
    as a whole word. *)
Theorem find_eeg_cols_once (cols : list string) :
  NoDup (find_eeg_cols cols) ∧
  (∀ c, c ∈ find_eeg_cols cols ↔
        c ∈ cols ∧ ∃ name, name ∈ EEG_NAMES
                           ∧ search (eeg_pattern name) c = true) ∧
  (∀ c, ascii_name c →
        c ∈ find_eeg_cols cols ↔
        c ∈ cols ∧ ∃ name, name ∈ EEG_NAMES ∧ whole_word name c).
Proof.
  split; [|split].
  - unfold find_eeg_cols, dict_fromkeys. apply dict_fold_NoDup, NoDup_nil_2.
  - intros c. apply elem_of_find_eeg_cols.
  - intros c _. rewrite elem_of_find_eeg_cols. split.
    + intros (Hc & name & Hname & Hs). split; [done|]. exists name.
      split; [done|]. by apply search_eeg_pattern.
    + intros (Hc & name & Hname & Hw). split; [done|]. exists name.
      split; [done|]. by apply search_eeg_pattern.
Qed.

Lemma find_eeg_cols_once_witness :
  ascii_name "EEG Fz" ∧
  ("EEG Fz" ∈ ["Time"; "EEG Fz"] ∧ ∃ name, name ∈ EEG_NAMES
                                            ∧ whole_word name "EEG Fz") ∧
  "EEG Fz" ∈ find_eeg_cols ["Time"; "EEG Fz"].
Proof.
  assert (Hascii : ascii_name "EEG Fz") by (repeat constructor).
  assert (Hw : "EEG Fz" ∈ ["Time"; "EEG Fz"]
               ∧ ∃ name, name ∈ EEG_NAMES ∧ whole_word name "EEG Fz").
  { split; [compute_done|]. exists "Fz". split; [compute_done|].
    exists (chars "EEG "), (chars "Fz"), []. repeat split.
    - intros a [= <-]. reflexivity.
    - intros a Ha. discriminate. }
  split; [done|]. split; [done|].
  exact (proj2 (proj2 (proj2 (find_eeg_cols_once ["Time"; "EEG Fz"]))
                  "EEG Fz" Hascii) Hw).
Defined.

(** X5: for distinct column names, the EEG group found by name is ordered
    by the position, in [EEG_NAMES], of the first label that each column
    matches, and in table order among the columns of one label; it is not
    in table order. *)
Theorem find_eeg_cols_order (cols : list string) :
  NoDup cols →
  find_eeg_cols cols
  = j ← seq 0 (length EEG_NAMES);
    filter (λ c, eeg_rank EEG_NAMES c = Some j) cols.
Proof.
  intros Hnd. unfold find_eeg_cols, dict_fromkeys.
  rewrite (found_rank cols EEG_NAMES [] [] Hnd); [done|].
  intros c. split; [by intros ?%elem_of_nil|].
  intros (_ & j & Hj & _). simpl in Hj. lia.
Qed.

Lemma find_eeg_cols_order_witness :
  NoDup ["Time"; "Cz"; "Pz Fz"; "Fz"] ∧
  find_eeg_cols ["Time"; "Cz"; "Pz Fz"; "Fz"] = ["Pz Fz"; "Fz"; "Cz"].
Proof.
  assert (Hnd : NoDup ["Time"; "Cz"; "Pz Fz"; "Fz"]) by compute_done.
  split; [done|].
  rewrite (find_eeg_cols_order ["Time"; "Cz"; "Pz Fz"; "Fz"] Hnd).
  vm_compute. reflexivity.
Defined.

(** ** Case-insensitive matching *)

Module ReCase.
Import Re.

Lemma lower_cons_inv a s t :
  lower (a :: s) = lower t →
  ∃ b t', t = b :: t' ∧ lower_char a = lower_char b ∧ lower s = lower t'.
Proof.
  destruct t as [|b t']; [done|]. simpl. intros [= Hab Hst]. eauto.
Qed.

Lemma head_lower_word s t :
  lower s = lower t →
  from_option is_word false (head s) = from_option is_word false (head t).
Proof.
  destruct s as [|a s].
  - destruct t; [done | discriminate].
  - intros (b & t' & -> & Hab & _)%lower_cons_inv. simpl.
    by rewrite <- (is_word_lower_char a), Hab, is_word_lower_char.
Qed.

Lemma at_boundary_case k k' :
  same_up_to_case k k' → at_boundary k = at_boundary k'.
Proof.
  intros [H1 H2]. unfold at_boundary.
  rewrite !ReFacts.word_before_head, !ReFacts.word_after_head.
  by rewrite (head_lower_word _ _ H1), (head_lower_word _ _ H2).
Qed.

Lemma eat_case (ok : ascii → bool) k k' :
  (∀ a b, lower_char a = lower_char b → ok a = ok b) →
  same_up_to_case k k' →
  Forall2 same_up_to_case (eat ok k) (eat ok k').
Proof.
  intros Hok [H1 H2]. unfold eat.
  destruct k as [b s], k' as [b' s']; simpl in *.
  destruct s as [|a s].
  - destruct s'; [constructor | discriminate].
  - apply lower_cons_inv in H2 as (a' & t' & -> & Ha & Hs).
    rewrite (Hok a a' Ha). destruct (ok a'); [|constructor].
    constructor; [|constructor].
    split; simpl; [|done]. rewrite Ha, H1. done.
Qed.

Lemma step_case r : ∀ k k',
  same_up_to_case k k' → Forall2 same_up_to_case (step r k) (step r k').
Proof.
  induction r as [|c|cs| |r1 IH1 r2 IH2|r1 IH1 r2 IH2|r1 IH1];
    intros k k' Hk; simpl.
  - by constructor.
  - apply eat_case; [|done]. intros a b Hab. unfold same_char. by rewrite Hab.
  - apply eat_case; [|done]. intros a b Hab.
    induction cs as [|c cs IH]; simpl; [done|].
    unfold same_char at 1 3. by rewrite Hab, IH.
  - rewrite (at_boundary_case k k' Hk). destruct (at_boundary k'); by constructor.
  - apply Forall2_bind. eapply Forall2_impl; [by apply IH1|].
    intros k1 k1' Hk1. by apply IH2.
  - apply Forall2_app; [by apply IH1 | by apply IH2].
  - apply Forall2_app; [by apply IH1 | by constructor].
Qed.

Lemma matches_at_case r k k' :
  same_up_to_case k k' → matches_at r k = matches_at r k'.
Proof.
  intros Hk. unfold matches_at.
  by destruct (step_case r k k' Hk).
Qed.

Lemma search_from_case r s : ∀ b b' s',
  lower b = lower b' → lower s = lower s' →
  search_from r b s = search_from r b' s'.
Proof.
  induction s as [|a s IH]; intros b b' s' Hb Hs.
  - destruct s'; [|discriminate]. simpl.
    by rewrite (matches_at_case r (b, []) (b', [])).
  - pose proof Hs as Hs'.
    apply lower_cons_inv in Hs' as (a' & t' & -> & Ha & Ht). simpl.
    rewrite (matches_at_case r (b, a :: s) (b', a' :: t')) by done.
    rewrite (IH (a :: b) (a' :: b') t'); [done | | done].
    simpl. by rewrite Ha, Hb.
Qed.

End ReCase.

(** X6: the classifier is insensitive to case: two column names that agree
    up to case are treated alike by every pattern searched with [re.I], so
    by the EEG, ECG, CommonMode and Ignore patterns, and by the test for
    "time". *)
Theorem classification_ignores_case (c c' : string) :
  lower (chars c) = lower (chars c') →
  (∀ r, search r c = search r c') ∧ has_time c = has_time c'.
Proof.
  intros Hcc'. split.
  - intros r. unfold search. by apply ReCase.search_from_case.
  - unfold has_time. by rewrite Hcc'.
Qed.

Lemma classification_ignores_case_witness :
  lower (chars "ADC_Status") = lower (chars "adc_STATUS") ∧
  search ignore_pattern "ADC_Status" = search ignore_pattern "adc_STATUS".
Proof.
  assert (H : lower (chars "ADC_Status") = lower (chars "adc_STATUS"))
    by reflexivity.
  split; [done|].
  exact (proj1 (classification_ignores_case "ADC_Status" "adc_STATUS" H)
           ignore_pattern).
Defined.

(** ** The run as a whole *)

Lemma fmap_const_on {A B} (f : A → B) (b : B) (l : list A) :
  (∀ a, a ∈ l → f a = b) → f <$> l = replicate (length l) b.
Proof.
  induction l as [|a l IH]; intros Hf; [done|].
  rewrite fmap_cons. cbn [length replicate].
  rewrite (Hf a) by left. rewrite IH; [done|]. intros a' Ha'. apply Hf. by right.
Qed.

Lemma eeg_vis_spec (ne k : nat) :
  (λ i, bool_decide (i ∈ seq 0 ne)) <$> seq 0 (ne + k)
  = replicate ne true ++ replicate k false.
Proof.
  rewrite seq_app, fmap_app. f_equal.
  - rewrite (fmap_const_on _ true), length_seq; [done|].
    intros i Hi. by rewrite bool_decide_eq_true_2.
  - rewrite (fmap_const_on _ false), length_seq; [done|].
    intros i Hi. apply elem_of_seq in Hi. apply bool_decide_eq_false_2.
    rewrite elem_of_seq. lia.
Qed.

Lemma ecgcm_vis_spec (ne nc nm : nat) :
  (λ i, bool_decide (i ∈ seq ne nc ++ seq (ne + nc) nm)) <$> seq 0 (ne + (nc + nm))
  = replicate ne false ++ replicate (nc + nm) true.
Proof.
  rewrite seq_app, fmap_app. f_equal.
  - rewrite (fmap_const_on _ false), length_seq; [done|].
    intros i Hi. apply elem_of_seq in Hi. apply bool_decide_eq_false_2.
    rewrite elem_of_app, !elem_of_seq. lia.
  - rewrite (fmap_const_on _ true), length_seq; [done|].
    intros i Hi. apply elem_of_seq in Hi. apply bool_decide_eq_true_2.
    rewrite elem_of_app, !elem_of_seq. lia.
Qed.

Lemma main_Ok_detect parse_number args df w :
  main parse_number args df = Ok w → ∃ r, detect df = Ok r.
Proof.
  unfold main. destruct (detect df) as [r|e]; [eauto | discriminate].
Qed.

(** The figure that a run past the fatal check writes, presets included. *)
Lemma main_written parse_number args df r :
  detect df = Ok r →
  let df' := downsample_step (downsample args) df in
  let ne := length (eeg_cols r) in
  let k := (length (ecg_cols r) + length (cm_cols r))%nat in
  traces parse_number df' r ≠ [] →
  main parse_number args df
  = Ok (MkWritten (output args)
          (MkFigure (traces parse_number df' r)
             [("All", replicate (ne + k) true);
              ("EEG only", replicate ne true ++ replicate k false);
              ("ECG+CM only", replicate ne false ++ replicate k true);
              ("Hide all", replicate (ne + k) false)])).
Proof.
  intros Hr df' ne k Hne.
  destruct (roles_subseteq df r Hr) as (Ht & Heeg & Hecg & Hcm).
  rewrite <- (columns_downsample_step (downsample args) df) in Ht, Heeg, Hecg, Hcm.
  fold df' in Ht, Heeg, Hecg, Hcm.
  unfold main. rewrite Hr. simpl. fold df'.
  rewrite (for_each_add df' (eeg_trace df' (time_col r)));
    [|intros; by apply eeg_body_Ok | by apply Forall_forall].
  simpl.
  rewrite (for_each_add df' (ecg_trace parse_number df' (time_col r)));
    [|intros; by apply ecg_body_Ok | by apply Forall_forall].
  simpl.
  rewrite (for_each_add df' (cm_trace parse_number df' (time_col r)));
    [|intros; by apply cm_body_Ok | by apply Forall_forall].
  simpl. rewrite <- app_assoc. fold (traces parse_number df' r).
  assert (Hlen : length (traces parse_number df' r) = (ne + k)%nat).
  { unfold traces. rewrite !length_app, !length_fmap. done. }
  destruct (traces parse_number df' r) as [|tr trs] eqn:Htr; [done|].
  rewrite Hlen, !length_app, !length_fmap.
  fold ne. rewrite eeg_vis_spec. unfold k.
  rewrite (ecgcm_vis_spec ne (length (ecg_cols r)) (length (cm_cols r))).
  done.
Qed.

(** X7: the four visibility presets of a written figure: "All" shows every
    trace and "Hide all" none; "EEG only" shows the EEG traces, which come
    first, and nothing else; "ECG+CM only" shows exactly the others.  Each
    preset has one entry per trace. *)
Theorem visibility_presets parse_number (args : Args) (df : DataFrame)
    (r : Roles) (w : Written) :
  detect df = Ok r →
  main parse_number args df = Ok w →
  let ne := length (eeg_cols r) in
  let k := (length (ecg_cols r) + length (cm_cols r))%nat in
  length (data (figure w)) = (ne + k)%nat ∧
  updatemenus (figure w)
  = [("All", replicate (ne + k) true);
     ("EEG only", replicate ne true ++ replicate k false);
     ("ECG+CM only", replicate ne false ++ replicate k true);
     ("Hide all", replicate (ne + k) false)].
Proof.
  intros Hr Hw ne k.
  pose proof (main_result parse_number args df r Hr) as Hres. simpl in Hres.
  pose proof (main_written parse_number args df r Hr) as Hwr. simpl in Hwr.
  assert (Hlen : length (traces parse_number
                           (downsample_step (downsample args) df) r)
                 = (ne + k)%nat).
  { unfold traces. rewrite !length_app, !length_fmap. done. }
  destruct (traces parse_number (downsample_step (downsample args) df) r)
    as [|tr trs] eqn:Htr.
  - rewrite Hres in Hw. discriminate.
  - rewrite Hwr in Hw by done. injection Hw as <-. split; [exact Hlen | done].
Qed.

Lemma visibility_presets_witness :
  let df := numeric_table ["Time"; "Fz"; "Cz"; "X1"; "CM"] in
  let r := MkRoles "Time" ["Fz"; "Cz"] ["X1"] ["CM"] in
  detect df = Ok r ∧
  ∃ w, main read_decimal (MkArgs "in.csv" "out.html" 1) df = Ok w ∧
       updatemenus (figure w)
       = [("All", [true; true; true; true]);
          ("EEG only", [true; true; false; false]);
          ("ECG+CM only", [false; false; true; true]);
          ("Hide all", [false; false; false; false])].
Proof.
  intros df r.
  assert (Hr : detect df = Ok r) by (vm_compute; reflexivity).
  split; [done|].
  destruct (main read_decimal (MkArgs "in.csv" "out.html" 1) df) as [w|e] eqn:Hw;
    [|vm_compute in Hw; discriminate].
  exists w. split; [done|].
  exact (proj2 (visibility_presets read_decimal _ df r w Hr Hw)).
Defined.

(** ** Downsampling and the series *)

Lemma fmap_slice_step {A B} (f : A → B) (d : nat) (l : list A) : ∀ k,
  f <$> slice_step d k l = slice_step d k (f <$> l).
Proof.
  induction l as [|a l IH]; intros k; [done|].
  rewrite fmap_cons. cbn [slice_step]. destruct k as [|k'].
  - by rewrite fmap_cons, IH.
  - apply IH.
Qed.

Lemma cells_of_iloc_step n df c :
  cells_of (iloc_step n df) c = slice_step n 0 (cells_of df c).
Proof.
  unfold cells_of, getitem, iloc_step. simpl.
  induction (df_columns df) as [|col cols IH]; [done|].
  rewrite fmap_cons. cbn [list_find]. simpl.
  destruct (decide (col_name col = c)) as [Hc|Hc]; [done|].
  destruct (list_find _ (_ <$> cols)) as [[i x1]|];
    destruct (list_find _ cols) as [[j y1]|]; simpl in *; done.
Qed.

Lemma cells_of_downsample_step d df c :
  d > 1 →
  cells_of (downsample_step d df) c = slice_step (Z.to_nat d) 0 (cells_of df c).
Proof.
  intros Hd. unfold downsample_step. rewrite bool_decide_eq_true_2 by done.
  apply cells_of_iloc_step.
Qed.

Lemma traces_downsample_step parse_number d df r :
  d > 1 →
  traces parse_number (downsample_step d df) r
  = slice_trace (Z.to_nat d) <$> traces parse_number df r.
Proof.
  intros Hd. unfold traces. rewrite !fmap_app, <- !list_fmap_compose.
  f_equal; [|f_equal]; apply list_fmap_ext; intros i c _; simpl;
    unfold eeg_trace, ecg_trace, cm_trace, slice_trace; simpl;
    rewrite !cells_of_downsample_step by done;
    by rewrite ?fmap_slice_step.
Qed.

(** X9: downsampling commutes with building the figure: the run with a
    factor d > 1 writes the figure of the run with factor 1 in which every
    trace keeps the points 0, d, 2d, ... of its x and y data; names, axes,
    styles and visibility presets are the same, and one run completes
    exactly when the other does. *)
Theorem downsampled_figure parse_number (inp out : string) (d : Z)
    (df : DataFrame) (w1 : Written) :
  d > 1 →
  main parse_number (MkArgs inp out 1) df = Ok w1 →
  ∃ w, main parse_number (MkArgs inp out d) df = Ok w ∧
       path w = path w1 ∧
       data (figure w) = slice_trace (Z.to_nat d) <$> data (figure w1) ∧
       updatemenus (figure w) = updatemenus (figure w1).
Proof.
  intros Hd Hw1.
  destruct (main_Ok_detect _ _ _ _ Hw1) as [r Hr].
  pose proof (main_result parse_number (MkArgs inp out 1) df r Hr) as Hres.
  pose proof (main_written parse_number (MkArgs inp out 1) df r Hr) as Hwr1.
  pose proof (main_written parse_number (MkArgs inp out d) df r Hr) as Hwrd.
  simpl in Hres, Hwr1, Hwrd. change (downsample_step 1 df) with df in *.
  rewrite (traces_downsample_step parse_number d df r Hd) in Hwrd.
  destruct (traces parse_number df r) as [|tr trs] eqn:Htr.
  - rewrite Hres in Hw1. discriminate.
  - rewrite Hwr1 in Hw1 by done. injection Hw1 as <-.
    eexists. split; [apply Hwrd; done|]. done.
Qed.

Lemma downsampled_figure_witness :
  let df := scenario (seq 0 10) ten ten ten ten ten in
  4 > 1 ∧
  ∃ w1 w, main read_decimal (MkArgs "in.csv" "out.html" 1) df = Ok w1 ∧
          main read_decimal (MkArgs "in.csv" "out.html" 4) df = Ok w ∧
          data (figure w) = slice_trace 4 <$> data (figure w1).
Proof.
  intros df. assert (Hd : 4 > 1) by lia. split; [done|].
  destruct (main read_decimal (MkArgs "in.csv" "out.html" 1) df) as [w1|e] eqn:Hw1;
    [|vm_compute in Hw1; discriminate].
  destruct (downsampled_figure read_decimal "in.csv" "out.html" 4 df w1 Hd Hw1)
    as (w & Hw & _ & Hdata & _).
  exists w1, w. done.
Defined.

Lemma numeric_columns_downsample_step d df :
  numeric_columns (downsample_step d df) = numeric_columns df.
Proof.
  unfold downsample_step. case_bool_decide; [|done].
  unfold numeric_columns. simpl.
  induction (df_columns df) as [|col cols IH]; [done|].
  rewrite fmap_cons, !filter_cons. simpl.
  case_decide; [rewrite !fmap_cons; simpl|]; by rewrite IH.
Qed.

(** X10: the roles of the columns do not depend on the rows: detecting on
    the downsampled table gives the roles detected on the full table, so
    downsampling after detection, as [main] does, loses nothing. *)
Theorem detect_downsample_step (d : Z) (df : DataFrame) :
  detect (downsample_step d df) = detect df.
Proof.
  unfold detect, eeg_by_name, not_ignored.
  by rewrite columns_downsample_step, numeric_columns_downsample_step.
Qed.

(** ** The data of the series *)

Lemma well_formed_downsample_step d df :
  well_formed df → well_formed (downsample_step d df).
Proof.
  intros Hwf. unfold downsample_step. case_bool_decide as Hd; [|done].
  unfold well_formed, len in *. simpl. rewrite length_seq.
  unfold len. simpl. rewrite Forall_fmap. eapply Forall_impl; [exact Hwf|].
  intros col Hcol. simpl. rewrite !length_slice_step by lia. by rewrite Hcol.
Qed.

Lemma length_cells_of df c :
  well_formed df → c ∈ columns df → length (cells_of df c) = len df.
Proof.
  intros Hwf Hc. unfold cells_of, getitem.
  destruct (list_find _ (df_columns df)) as [[i col]|] eqn:Hfind.
  - apply list_find_Some in Hfind as (Hi & _).
    unfold well_formed in Hwf. rewrite Forall_forall in Hwf. apply Hwf.
    eapply list_elem_of_lookup_2. done.
  - exfalso. apply list_find_None in Hfind. rewrite Forall_forall in Hfind.
    unfold columns in Hc. apply list_elem_of_fmap in Hc as (col & -> & Hcol).
    by apply (Hfind col).
Qed.

(** X11: in a table whose columns all have one cell per row, every trace
    of the written figure has as many x values and as many y values as the
    table has rows after downsampling. *)
Theorem traces_lengths parse_number (args : Args) (df : DataFrame) (w : Written) :
  well_formed df →
  main parse_number args df = Ok w →
  Forall (λ tr, length (x tr) = len (downsample_step (downsample args) df)
                ∧ length (y tr) = len (downsample_step (downsample args) df))
         (data (figure w)).
Proof.
  intros Hwf Hw.
  destruct (main_Ok_detect _ _ _ _ Hw) as [r Hr].
  pose proof (main_result parse_number args df r Hr) as Hres. simpl in Hres.
  set (df' := downsample_step (downsample args) df) in *.
  assert (Hwf' : well_formed df') by (by apply well_formed_downsample_step).
  destruct (roles_subseteq df r Hr) as (Ht & Heeg & Hecg & Hcm).
  rewrite <- (columns_downsample_step (downsample args) df) in Ht, Heeg, Hecg, Hcm.
  fold df' in Ht, Heeg, Hecg, Hcm.
  assert (Hall : Forall (λ tr, length (x tr) = len df' ∧ length (y tr) = len df')
                        (traces parse_number df' r)).
  { unfold traces. rewrite !Forall_app, !Forall_fmap. repeat split;
      apply Forall_forall; intros c Hc; simpl;
      rewrite ?length_fmap, !length_cells_of; auto. }
  destruct (traces parse_number df' r) as [|tr trs].
  - rewrite Hres in Hw. discriminate.
  - destruct Hres as (w' & Hw' & _ & Hdata).
    assert (w' = w) as -> by congruence. by rewrite Hdata.
Qed.

Lemma traces_lengths_witness :
  let df := scenario (seq 0 10) ten ten ten ten ten in
  well_formed df ∧
  ∃ w, main read_decimal (MkArgs "in.csv" "out.html" 4) df = Ok w ∧
       Forall (λ tr, length (x tr) = 3%nat ∧ length (y tr) = 3%nat)
              (data (figure w)).
Proof.
  intros df.
  assert (Hwf : well_formed df) by (repeat constructor).
  split; [done|].
  destruct (main read_decimal (MkArgs "in.csv" "out.html" 4) df) as [w|e] eqn:Hw;
    [|vm_compute in Hw; discriminate].
  exists w. split; [done|].
  exact (traces_lengths read_decimal (MkArgs "in.csv" "out.html" 4) df w Hwf Hw).
Defined.

(** X12: the series on the secondary axis hold numbers and missing-value
    markers only: no text cell of an ECG or CommonMode column reaches the
    figure, whatever the column holds. *)
Theorem secondary_axis_numeric parse_number (args : Args) (df : DataFrame)
    (w : Written) :
  main parse_number args df = Ok w →
  Forall (λ tr, secondary_y tr = true →
                Forall (λ v, is_text v = false) (y tr))
         (data (figure w)).
Proof.
  intros Hw.
  destruct (main_Ok_detect _ _ _ _ Hw) as [r Hr].
  pose proof (main_result parse_number args df r Hr) as Hres. simpl in Hres.
  set (df' := downsample_step (downsample args) df) in *.
  assert (Hmv : ∀ l, Forall (λ v, is_text v = false)
                            (millivolts parse_number <$> l)).
  { intros l. rewrite Forall_fmap. apply Forall_forall. intros v _. simpl.
    unfold millivolts. by destruct (to_numeric parse_number v). }
  assert (Hall : Forall (λ tr, secondary_y tr = true →
                               Forall (λ v, is_text v = false) (y tr))
                        (traces parse_number df' r)).
  { unfold traces. rewrite !Forall_app, !Forall_fmap. repeat split;
      apply Forall_forall; intros c Hc; simpl; [discriminate| |]; intros _;
      apply Hmv. }
  destruct (traces parse_number df' r) as [|tr trs].
  - rewrite Hres in Hw. discriminate.
  - destruct Hres as (w' & Hw' & _ & Hdata).
    assert (w' = w) as -> by congruence. by rewrite Hdata.
Qed.

Lemma secondary_axis_numeric_witness :
  let df := Frame [0; 1]%nat
              [Column "Time" true [Num 0; Num 1];
               Column "X1" false [Str "1500"; Str "n/a"]] in
  ∃ w, main read_decimal (MkArgs "in.csv" "out.html" 1) df = Ok w ∧
       Forall (λ tr, secondary_y tr = true →
                     Forall (λ v, is_text v = false) (y tr))
              (data (figure w)).
Proof.
  intros df.
  destruct (main read_decimal (MkArgs "in.csv" "out.html" 1) df) as [w|e] eqn:Hw;
    [|vm_compute in Hw; discriminate].
  exists w. split; [done|].
  exact (secondary_axis_numeric read_decimal (MkArgs "in.csv" "out.html" 1) df w Hw).
Defined.

(** ** Groups of a table with distinct column names *)

Lemma numeric_columns_sublist df : numeric_columns df `sublist_of` columns df.
Proof.
  unfold numeric_columns, columns.
  induction (df_columns df) as [|col cols IH]; [done|].
  rewrite filter_cons, !fmap_cons. case_decide.
  - rewrite fmap_cons. by apply sublist_skip.
  - by apply sublist_cons.
Qed.

(** X13: in a table with distinct column names, as [read_csv] makes them,
    no group lists a column twice, so no column is drawn twice in one
    group; the ECG and CommonMode groups and an EEG group from the fallback
    are in table order. *)
Theorem groups_without_duplicates (df : DataFrame) (r : Roles) :
  NoDup (columns df) →
  detect df = Ok r →
  NoDup (eeg_cols r) ∧ NoDup (ecg_cols r) ∧ NoDup (cm_cols r) ∧
  ecg_cols r `sublist_of` columns df ∧
  cm_cols r `sublist_of` columns df ∧
  (eeg_by_name df = [] → eeg_cols r `sublist_of` columns df).
Proof.
  intros Hnd (_ & Hecg & Hcm & Heeg)%detect_inv.
  assert (Hsub_ecg : ecg_cols r `sublist_of` columns df).
  { rewrite Hecg. unfold not_ignored, find_ecg_cols.
    etrans; apply sublist_filter. }
  assert (Hsub_cm : cm_cols r `sublist_of` columns df).
  { rewrite Hcm. unfold not_ignored, find_cm_cols.
    etrans; apply sublist_filter. }
  assert (Hsub_fb : fallback_eeg df (time_col r) (ecg_cols r) (cm_cols r)
                      `sublist_of` columns df).
  { unfold fallback_eeg. etrans; [apply sublist_filter|].
    apply numeric_columns_sublist. }
  split; [|split; [|split; [|split; [|split]]]]; try done.
  - rewrite Heeg. destruct (eeg_by_name df) as [|c l] eqn:Hn.
    + by eapply sublist_NoDup.
    + rewrite <- Hn. unfold eeg_by_name, not_ignored. apply NoDup_filter.
      unfold find_eeg_cols, dict_fromkeys. apply dict_fold_NoDup, NoDup_nil_2.
  - by eapply sublist_NoDup.
  - by eapply sublist_NoDup.
  - intros Hnone. by rewrite Heeg, Hnone.
Qed.

Lemma groups_without_duplicates_witness :
  let df := numeric_table ["t"; "ch2"; "X2 reog"; "X1 leog"; "ch1"] in
  let r := MkRoles "t" ["ch2"; "ch1"] ["X2 reog"; "X1 leog"] [] in
  NoDup (columns df) ∧ detect df = Ok r ∧
  NoDup (eeg_cols r) ∧ ecg_cols r `sublist_of` columns df.
Proof.
  intros df r.
  assert (Hnd : NoDup (columns df)) by compute_done.
  assert (Hr : detect df = Ok r) by (vm_compute; reflexivity).
  destruct (groups_without_duplicates df r Hnd Hr) as (H1 & _ & _ & H2 & _).
  done.
Defined.
